(** * closer: the remote-resident supervisor (closer/closer.py)

    A shallow embedding of the supervisor script: the descriptor decoding
    ([interpret]), the command line declared in [main], the subtree kill
    ([killAll]), the control-channel listener ([quitWhenToldServer]) and the
    control flow of [main], as a two-thread transition system driven by a
    schedule of thread steps and environment events. *)

From Stdlib Require Import ZArith Ascii String List Lia.
From stdpp Require Import base decidable option list strings gmap fin_maps.

Set Warnings "-clear-no-such-hyp".

Open Scope string_scope.
Open Scope list_scope.

(** ** Python values, exceptions and fallible computations *)

(** The values the descriptor is made of.  A dict is a finite map with
    string keys (the descriptor only uses such keys). *)
#[warnings="-register-all"]
Inductive PyVal :=
| PyNone
| PyBool (b : bool)
| PyInt (z : Z)
| PyStr (s : string)
| PyTuple (l : list PyVal)
| PyList (l : list PyVal)
| PyDict (d : gmap string PyVal).

(** A raised exception: the name of its class and its message. *)
Record PyExc := Raise { exc_class : string; exc_msg : string }.

(** A computation that either raises or returns. *)
Definition result (A : Type) : Type := PyExc + A.

Definition ret {A} (a : A) : result A := inr a.

Definition bind {A B} (m : result A) (k : A -> result B) : result B :=
  match m with
  | inl e => inl e
  | inr a => k a
  end.

Notation "'let*' x := m 'in' k" := (bind m (fun x => k))
  (at level 10, x name, m at level 100, k at level 200).

Definition TypeError (msg : string) : PyExc := Raise "TypeError" msg.
Definition KeyError (key : string) : PyExc := Raise "KeyError" key.

(** [v[key]] for a string key. *)
Definition getitem (v : PyVal) (key : string) : result PyVal :=
  match v with
  | PyDict d =>
      match d !! key with
      | Some x => ret x
      | None => inl (KeyError key)
      end
  | _ => inl (TypeError "object has no attribute '__getitem__'")
  end.

(** ** The descriptor codec: [interpret] *)

(** The value of one hexadecimal digit, as the 'hex' codec reads it. *)
Definition hex_digit (c : ascii) : option N :=
  let n := N_of_ascii c in
  if ((48 <=? n) && (n <=? 57))%N then Some (n - 48)%N
  else if ((97 <=? n) && (n <=? 102))%N then Some (n - 87)%N
  else if ((65 <=? n) && (n <=? 70))%N then Some (n - 55)%N
  else None.

Fixpoint hex_pairs (s : string) : result string :=
  match s with
  | EmptyString => ret EmptyString
  | String _ EmptyString => inl (TypeError "Odd-length string")
  | String a (String b rest) =>
      match hex_digit a, hex_digit b with
      | Some h, Some l =>
          let* r := hex_pairs rest in
          ret (String (ascii_of_N (16 * h + l)) r)
      | _, _ => inl (TypeError "Non-hexadecimal digit found")
      end
  end.

(** [s.decode( 'hex' )] on a Python 2 byte string: the length is checked
    first, then the digits; both failures are a TypeError. *)
Definition decode_hex (s : string) : result string :=
  if Nat.odd (String.length s) then inl (TypeError "Odd-length string")
  else hex_pairs s.

(** ** The command line declared in [main] *)

(** The namespace [parse_args] returns for the four declared arguments. *)
Record Namespace := {
  detailsHexedPickle : string;
  arg_killer : string;
  quitWhenTold : bool;
  arg_interpret : bool
}.

(** [choices] and [default] of the [--killer] argument. *)
Definition killer_choices : list string := ["kill"; "terminate"].
Definition killer_default : string := "terminate".

Definition is_option (tok : string) : bool :=
  match tok with
  | String "-" _ => true
  | _ => false
  end.

(** The parser of [main] on the tokens after the program name: the
    namespace, or the status argparse exits with (0 after the help, 2 after
    a usage error).  Options are matched by their full name, with the value
    of [--killer] in the next token; abbreviated names and the
    [--name=value] form are not part of this model.  A value outside
    [choices] and a missing value are errors on the spot; an unknown option
    and a second positional argument are reported at the end, as is a
    missing positional argument. *)
Fixpoint parse_loop (argv : list string) (details : option string)
    (k : string) (q i extras : bool) : Z + Namespace :=
  match argv with
  | [] =>
      match details with
      | Some d =>
          if extras then inl 2%Z
          else inr {| detailsHexedPickle := d; arg_killer := k;
                      quitWhenTold := q; arg_interpret := i |}
      | None => inl 2%Z
      end
  | tok :: rest =>
      if String.eqb tok "-h" || String.eqb tok "--help" then inl 0%Z
      else if String.eqb tok "--killer" then
        match rest with
        | v :: rest' =>
            if bool_decide (v ∈ killer_choices)
            then parse_loop rest' details v q i extras
            else inl 2%Z
        | [] => inl 2%Z
        end
      else if String.eqb tok "--quit-when-told" then
        parse_loop rest details k true i extras
      else if String.eqb tok "--interpret" then
        parse_loop rest details k q true extras
      else if is_option tok then parse_loop rest details k q i true
      else
        match details with
        | None => parse_loop rest (Some tok) k q i extras
        | Some _ => parse_loop rest details k q i true
        end
  end.

Definition parse_args (argv : list string) : Z + Namespace :=
  parse_loop argv None killer_default false false false.

(** ** The process table and the subtree kill *)

(** The operating system's process table: each live pid with the pid of its
    parent. *)
Definition parent (tbl : gmap Z Z) (p : Z) : option Z := tbl !! p.

(** [p] is a descendant of [me]: a child, or a child of a descendant. *)
Inductive descendant (tbl : gmap Z Z) (me : Z) : Z -> Prop :=
| desc_child p : parent tbl p = Some me -> descendant tbl me p
| desc_step p q :
    parent tbl p = Some q -> descendant tbl me q -> descendant tbl me p.

(** Does the chain of parents of [p] meet [me] within [fuel] links? *)
Fixpoint reaches (fuel : nat) (tbl : gmap Z Z) (me p : Z) : bool :=
  match fuel with
  | O => false
  | S fuel' =>
      match parent tbl p with
      | None => false
      | Some q => bool_decide (q = me) || reaches fuel' tbl me q
      end
  end.

(** The [n]-th ancestor of [p], used to measure chains of parents. *)
Fixpoint up (tbl : gmap Z Z) (n : nat) (p : Z) : option Z :=
  match n with
  | O => Some p
  | S n' =>
      match parent tbl p with
      | None => None
      | Some q => up tbl n' q
      end
  end.

(** [psutil.Process( me ).children( recursive = True )]: the library call is
    modelled by what it enumerates, the pids of the table whose chain of
    parents meets [me].  A chain without a repeated pid has at most
    [size tbl] links. *)
Definition children_recursive (tbl : gmap Z Z) (me : Z) : list Z :=
  List.filter (reaches (size tbl) tbl me) (elements (dom tbl)).

(** What the supervisor does to the outside, in program order. *)
Inductive Event :=
| EvPprint (details : PyVal)
| EvPopen (args kwargs : PyVal)
| EvSignalHandler
| EvThreadStart
| EvConnect (peer : PyVal)
| EvSend (data : string)
| EvRecv (data : string)
| EvCall (pid : Z) (method : string)
| EvJoin
| EvExit (code : Z).

(** [getattr( process, killer )]: the module global [killer] is [None] until
    [main] assigns it, and an attribute name must be a string. *)
Definition getattr (killer : option string) : result string :=
  match killer with
  | Some name => ret name
  | None => inl (TypeError "getattr(): attribute name must be string")
  end.

(** The loop of [killAll]: the calls made, and the exception that ended the
    loop early if one was raised.  A call of the method itself is taken to
    return. *)
Fixpoint killAll_loop (killer : option string) (procs : list Z)
  : list Event * option PyExc :=
  match procs with
  | [] => ([], None)
  | process :: rest =>
      match getattr killer with
      | inl e => ([], Some e)
      | inr killMethod =>
          let '(evs, r) := killAll_loop killer rest in
          (EvCall process killMethod :: evs, r)
      end
  end.

(** [killAll( * args )]: the arguments (none from the listener, the signal
    number and the frame from the signal machinery) are ignored. *)
Definition killAll (args : list PyVal) (killer : option string)
    (tbl : gmap Z Z) (me : Z) : list Event * option PyExc :=
  killAll_loop killer (children_recursive tbl me).

(** ** The supervisor as a two-thread transition system *)

(** How the supervisor process ended: it exited with a status, its main
    thread died of an uncaught exception, or a signal killed it. *)
Inductive Status :=
| Exited (code : Z)
| Uncaught (e : PyExc)
| Killed (signum : Z).

(** The program points of [main], each named after what the main thread is
    about to do: parse the command line and set [killer] (lines 37-44),
    decode the token and, with [--interpret], print and return (46-49),
    launch the child (51-52), install the handler (53), choose the branch
    and start the listener (54-57), wait for the child (58, 63), read
    [killedByUser] (59), join the listener (60), call [sys.exit] (61, 64).
    [MShutdown] is the interpreter after the main thread has finished: it
    waits for the threads that are not daemons.  [MHalt] is the process
    gone. *)
Inductive MainPC :=
| MParse (argv : list string)
| MDecode (arguments : Namespace)
| MPopen (arguments : Namespace) (details : PyVal)
| MSignal (arguments : Namespace) (details : PyVal)
| MBranch (arguments : Namespace) (details : PyVal)
| MWait (told : bool)
| MCheck (exitCode : Z)
| MJoin (exitCode : Z)
| MExit (exitCode : Z)
| MShutdown (st : Status)
| MHalt (st : Status).

(** The program points of the thread that runs [quitWhenToldServer]: not
    started, about to create and connect the socket (lines 24-25), to send
    (26), to receive (27), to set [killedByUser] (28), to call [killAll]
    (29), finished. *)
Inductive ListenerPC :=
| LIdle
| LConnect (peer : PyVal)
| LSend
| LRecv
| LFlag
| LKill
| LDone.

(** The disposition of SIGTERM. *)
Inductive Handler := SIG_DFL | Handler_killAll.

(** The child started by [subprocess.Popen]. *)
Inductive Child :=
| NoChild
| Running (pid : Z)
| Finished (pid : Z) (returncode : Z).

(** The module globals [killer] and [killedByUser], the two threads, and the
    part of the operating system the script talks to. *)
Record State := {
  killer : option string;
  killedByUser : bool;
  pc : MainPC;
  thread : ListenerPC;
  daemon : bool;
  sigterm : Handler;
  subProcess : Child;
  inbox : list string;
  procs : gmap Z Z
}.

Definition set_killer (s : State) (k : option string) : State :=
  {| killer := k; killedByUser := killedByUser s; pc := pc s;
     thread := thread s; daemon := daemon s; sigterm := sigterm s;
     subProcess := subProcess s; inbox := inbox s; procs := procs s |}.

Definition set_killedByUser (s : State) (b : bool) : State :=
  {| killer := killer s; killedByUser := b; pc := pc s;
     thread := thread s; daemon := daemon s; sigterm := sigterm s;
     subProcess := subProcess s; inbox := inbox s; procs := procs s |}.

Definition set_pc (s : State) (p : MainPC) : State :=
  {| killer := killer s; killedByUser := killedByUser s; pc := p;
     thread := thread s; daemon := daemon s; sigterm := sigterm s;
     subProcess := subProcess s; inbox := inbox s; procs := procs s |}.

Definition set_thread (s : State) (l : ListenerPC) : State :=
  {| killer := killer s; killedByUser := killedByUser s; pc := pc s;
     thread := l; daemon := daemon s; sigterm := sigterm s;
     subProcess := subProcess s; inbox := inbox s; procs := procs s |}.

Definition set_daemon (s : State) (b : bool) : State :=
  {| killer := killer s; killedByUser := killedByUser s; pc := pc s;
     thread := thread s; daemon := b; sigterm := sigterm s;
     subProcess := subProcess s; inbox := inbox s; procs := procs s |}.

Definition set_sigterm (s : State) (h : Handler) : State :=
  {| killer := killer s; killedByUser := killedByUser s; pc := pc s;
     thread := thread s; daemon := daemon s; sigterm := h;
     subProcess := subProcess s; inbox := inbox s; procs := procs s |}.

Definition set_subProcess (s : State) (c : Child) : State :=
  {| killer := killer s; killedByUser := killedByUser s; pc := pc s;
     thread := thread s; daemon := daemon s; sigterm := sigterm s;
     subProcess := c; inbox := inbox s; procs := procs s |}.

Definition set_inbox (s : State) (q : list string) : State :=
  {| killer := killer s; killedByUser := killedByUser s; pc := pc s;
     thread := thread s; daemon := daemon s; sigterm := sigterm s;
     subProcess := subProcess s; inbox := q; procs := procs s |}.

Definition set_procs (s : State) (tbl : gmap Z Z) : State :=
  {| killer := killer s; killedByUser := killedByUser s; pc := pc s;
     thread := thread s; daemon := daemon s; sigterm := sigterm s;
     subProcess := subProcess s; inbox := inbox s; procs := tbl |}.

(** Is the listener thread started and not yet finished? *)
Definition is_alive (l : ListenerPC) : bool :=
  match l with
  | LIdle | LDone => false
  | _ => true
  end.

(** Has the listener connected its socket (so that a datagram can be queued
    on it)? *)
Definition connected (l : ListenerPC) : bool :=
  match l with
  | LIdle | LConnect _ => false
  | _ => true
  end.

Definition SIGTERM : Z := 15.

Section Supervisor.

(** The collaborators outside the script: the unpickler, the process
    launcher (it returns the pid of the new child, or raises) and the pid of
    the supervisor itself. *)
Variable pickle_loads : string -> result PyVal.
Variable Popen : PyVal -> PyVal -> result Z.
Variable getpid : Z.

(** [interpret( hexedPickle )]. *)
Definition interpret (hexedPickle : string) : result PyVal :=
  let* pickled := decode_hex hexedPickle in
  pickle_loads pickled.

(** Lines 51-52 of [main]: the two lookups and the launch. *)
Definition spawn (details : PyVal) : result (PyVal * PyVal * Z) :=
  let* popenDetails := getitem details "popenDetails" in
  let* args := getitem popenDetails "args" in
  let* kwargs := getitem popenDetails "kwargs" in
  let* pid := Popen args kwargs in
  ret (args, kwargs, pid).

(** One step of the main thread.  A blocked call ([wait] on a running child,
    [join] on a live thread, the shutdown behind a live thread that is not a
    daemon) leaves the state as it is. *)
Definition main (s : State) : State * list Event :=
  match pc s with
  | MParse argv =>
      match parse_args argv with
      | inl status => (set_pc s (MShutdown (Exited status)), [])
      | inr arguments =>
          (set_pc (set_killer s (Some (arg_killer arguments)))
                  (MDecode arguments), [])
      end
  | MDecode arguments =>
      match interpret (detailsHexedPickle arguments) with
      | inl e => (set_pc s (MShutdown (Uncaught e)), [])
      | inr details =>
          if arg_interpret arguments
          then (set_pc s (MShutdown (Exited 0)), [EvPprint details])
          else (set_pc s (MPopen arguments details), [])
      end
  | MPopen arguments details =>
      match spawn details with
      | inl e => (set_pc s (MShutdown (Uncaught e)), [])
      | inr (args, kwargs, pid) =>
          (set_pc (set_procs (set_subProcess s (Running pid))
                             (<[pid := getpid]> (procs s)))
                  (MSignal arguments details),
           [EvPopen args kwargs])
      end
  | MSignal arguments details =>
      (set_pc (set_sigterm s Handler_killAll) (MBranch arguments details),
       [EvSignalHandler])
  | MBranch arguments details =>
      if quitWhenTold arguments then
        match getitem details "peer" with
        | inl e => (set_pc s (MShutdown (Uncaught e)), [])
        | inr peer =>
            (set_pc (set_daemon (set_thread s (LConnect peer)) true)
                    (MWait true),
             [EvThreadStart])
        end
      else (set_pc s (MWait false), [])
  | MWait told =>
      match subProcess s with
      | Finished _ exitCode =>
          (set_pc s (if told then MCheck exitCode else MExit exitCode), [])
      | _ => (s, [])
      end
  | MCheck exitCode =>
      if killedByUser s then (set_pc s (MJoin exitCode), [])
      else (set_pc s (MExit exitCode), [])
  | MJoin exitCode =>
      if is_alive (thread s) then (s, [])
      else (set_pc s (MExit exitCode), [EvJoin])
  | MExit exitCode =>
      (set_pc s (MShutdown (Exited exitCode)), [EvExit exitCode])
  | MShutdown st =>
      if is_alive (thread s) && negb (daemon s) then (s, [])
      else (set_pc s (MHalt st), [])
  | MHalt _ => (s, [])
  end.

(** One step of the listener thread; [recv] blocks on an empty socket and
    returns at most 1024 bytes of the first datagram. *)
Definition quitWhenToldServer (s : State) : State * list Event :=
  match thread s with
  | LIdle => (s, [])
  | LConnect peer => (set_thread s LSend, [EvConnect peer])
  | LSend => (set_thread s LRecv, [EvSend "hi"])
  | LRecv =>
      match inbox s with
      | [] => (s, [])
      | data :: rest =>
          (set_thread (set_inbox s rest) LFlag,
           [EvRecv (String.substring 0 1024 data)])
      end
  | LFlag => (set_thread (set_killedByUser s true) LKill, [])
  | LKill =>
      let '(evs, _) := killAll [] (killer s) (procs s) getpid in
      (set_thread s LDone, evs)
  | LDone => (s, [])
  end.

(** SIGTERM is delivered to the main thread: the default disposition kills
    the process, the installed handler is [killAll( signum, frame )]. *)
Definition deliver_sigterm (s : State) : State * list Event :=
  match sigterm s with
  | SIG_DFL => (set_pc s (MHalt (Killed SIGTERM)), [])
  | Handler_killAll =>
      let '(evs, r) :=
        killAll [PyInt SIGTERM; PyNone] (killer s) (procs s) getpid in
      match r with
      | None => (s, evs)
      | Some e => (set_pc s (MShutdown (Uncaught e)), evs)
      end
  end.

(** The two threads, and what the environment does to the supervisor. *)
Inductive Thread := Main | Listener.

Inductive Input :=
| RunMain
| RunListener
| ChildExit (returncode : Z)
| Datagram (data : string)
| Sigterm
| Procs (tbl : gmap Z Z).

Definition by_thread (t : Thread) (r : State * list Event)
  : State * list (Thread * Event) :=
  (fst r, List.map (pair t) (snd r)).

(** One transition.  Nothing happens once the process has ended: a daemon
    thread does not outlive it. *)
Definition step (s : State) (i : Input) : State * list (Thread * Event) :=
  match pc s with
  | MHalt _ => (s, [])
  | _ =>
      match i with
      | RunMain => by_thread Main (main s)
      | RunListener => by_thread Listener (quitWhenToldServer s)
      | ChildExit returncode =>
          match subProcess s with
          | Running pid => (set_subProcess s (Finished pid returncode), [])
          | _ => (s, [])
          end
      | Datagram data =>
          if connected (thread s)
          then (set_inbox s (inbox s ++ [data]), [])
          else (s, [])
      | Sigterm => by_thread Main (deliver_sigterm s)
      | Procs tbl => (set_procs s tbl, [])
      end
  end.

(** A run: the state reached and the events produced, in order. *)
Fixpoint exec (sched : list Input) (s : State)
  : State * list (Thread * Event) :=
  match sched with
  | [] => (s, [])
  | i :: rest =>
      let '(s1, evs1) := step s i in
      let '(s2, evs2) := exec rest s1 in
      (s2, evs1 ++ evs2)
  end.

(** The supervisor as the operating system starts it. *)
Definition boot (argv : list string) : State :=
  {| killer := None; killedByUser := false; pc := MParse argv;
     thread := LIdle; daemon := false; sigterm := SIG_DFL;
     subProcess := NoChild; inbox := []; procs := ∅ |}.

(** ** Vocabulary of the statements *)

(** The events of one thread, in order. *)
Definition events_of (t : Thread) (tr : list (Thread * Event)) : list Event :=
  List.map snd
    (List.filter (fun te => match fst te, t with
                            | Main, Main | Listener, Listener => true
                            | _, _ => false
                            end) tr).

Definition is_send (e : Event) : bool :=
  match e with EvSend _ => true | _ => false end.

Definition is_recv (e : Event) : bool :=
  match e with EvRecv _ => true | _ => false end.

Definition count (f : Event -> bool) (l : list Event) : nat :=
  length (List.filter f l).

(** The calls of a subtree kill with method [m] on the processes [ps]. *)
Definition calls (m : string) (ps : list Z) : list Event :=
  List.map (fun p => EvCall p m) ps.

(** The inputs that run [killAll]: the listener at its last statement, and
    SIGTERM once the handler is installed. *)
Definition runs_killAll (s : State) (i : Input) : option Thread :=
  match pc s with
  | MHalt _ => None
  | _ =>
      match i with
      | RunListener =>
          match thread s with LKill => Some Listener | _ => None end
      | Sigterm =>
          match sigterm s with Handler_killAll => Some Main | _ => None end
      | _ => None
      end
  end.

(** The value of [killedByUser] at each program point of the listener. *)
Definition told_at (l : ListenerPC) : bool :=
  match l with
  | LKill | LDone => true
  | _ => false
  end.

(** What holds in every state of a run of [main] on the namespace [a]. *)
Definition Inv (a : Namespace) (s : State) : Prop :=
  match pc s with
  | MParse argv =>
      parse_args argv = inr a /\ thread s = LIdle /\ sigterm s = SIG_DFL
  | MDecode a' | MPopen a' _ | MSignal a' _ =>
      a' = a /\ killer s = Some (arg_killer a) /\ thread s = LIdle /\
      sigterm s = SIG_DFL
  | MBranch a' _ =>
      a' = a /\ killer s = Some (arg_killer a) /\ thread s = LIdle /\
      sigterm s = Handler_killAll
  | MWait told =>
      killer s = Some (arg_killer a) /\ sigterm s = Handler_killAll /\
      (told = false -> thread s = LIdle)
  | MCheck c | MExit c =>
      killer s = Some (arg_killer a) /\ sigterm s = Handler_killAll /\
      exists pid, subProcess s = Finished pid c
  | MJoin c =>
      killer s = Some (arg_killer a) /\ sigterm s = Handler_killAll /\
      killedByUser s = true /\ exists pid, subProcess s = Finished pid c
  | MShutdown _ => killer s = Some (arg_killer a)
  | MHalt _ => True
  end /\
  killedByUser s = told_at (thread s) /\
  (thread s <> LIdle -> daemon s = true).

(** The main thread has finished. *)
Definition is_over (p : MainPC) : bool :=
  match p with
  | MShutdown _ | MHalt _ => true
  | _ => false
  end.

(** The process has ended. *)
Definition is_halted (p : MainPC) : bool :=
  match p with
  | MHalt _ => true
  | _ => false
  end.

(** The main thread is at [subProcess.wait()] or after it. *)
Definition waits_or_later (p : MainPC) : bool :=
  match p with
  | MWait _ | MCheck _ | MJoin _ | MExit _ => true
  | _ => false
  end.

(** The history of a run: [sys.exit] is only called with the return code of
    the finished child, a process that exited did so through [sys.exit]
    unless [--interpret] was given, [join] only returns on a finished
    listener, and every call of a kill method uses the configured one. *)
Definition InvExit (s : State) (tr : list (Thread * Event)) : Prop :=
  forall e, In (Main, EvExit e) tr ->
    is_over (pc s) = true /\ exists pid, subProcess s = Finished pid e.

Definition InvStatus (a : Namespace) (s : State)
    (tr : list (Thread * Event)) : Prop :=
  forall c, pc s = MShutdown (Exited c) \/ pc s = MHalt (Exited c) ->
    arg_interpret a = true \/ In (Main, EvExit c) tr.

Definition InvJoin (s : State) (tr : list (Thread * Event)) : Prop :=
  In (Main, EvJoin) tr ->
    thread s = LDone /\
    match pc s with
    | MExit _ | MShutdown _ | MHalt _ => True
    | _ => False
    end.

Definition InvCalls (a : Namespace) (tr : list (Thread * Event)) : Prop :=
  forall t p m, In (t, EvCall p m) tr -> m = arg_killer a.

(** What the listener has done so far, at each of its program points. *)
Definition Shape (l : ListenerPC) (evs : list Event) : Prop :=
  match l with
  | LIdle | LConnect _ => evs = []
  | LSend => exists peer, evs = [EvConnect peer]
  | LRecv => exists peer, evs = [EvConnect peer; EvSend "hi"]
  | LFlag | LKill =>
      exists peer data, evs = [EvConnect peer; EvSend "hi"; EvRecv data]
  | LDone =>
      exists peer data m ps,
        evs = [EvConnect peer; EvSend "hi"; EvRecv data] ++ calls m ps
  end.


(** The invariants of the states and of the histories of a run, together. *)
Definition Hist (a : Namespace) (s : State) (tr : list (Thread * Event))
  : Prop :=
  Inv a s /\ InvExit s tr /\ InvStatus a s tr /\ InvJoin s tr /\
  InvCalls a tr /\ Shape (thread s) (events_of Listener tr).


(** The listener has sent its datagram; it has received one. *)
Definition has_sent (l : ListenerPC) : bool :=
  match l with
  | LRecv | LFlag | LKill | LDone => true
  | _ => false
  end.

Definition has_received (l : ListenerPC) : bool :=
  match l with
  | LFlag | LKill | LDone => true
  | _ => false
  end.

(** Every send of the history comes after a receive. *)
Fixpoint sends_follow_recv (received : bool) (evs : list Event) : bool :=
  match evs with
  | [] => true
  | EvRecv _ :: rest => sends_follow_recv true rest
  | EvSend _ :: rest => received && sends_follow_recv received rest
  | _ :: rest => sends_follow_recv received rest
  end.

(** The number of steps of the main thread in a schedule, and the schedules
    in which no datagram arrives. *)
Definition main_steps (sched : list Input) : nat :=
  length (List.filter (fun i => match i with RunMain => true | _ => false end)
                      sched).

Definition no_datagram (sched : list Input) : bool :=
  forallb (fun i => match i with Datagram _ => false | _ => true end) sched.

Definition no_sigterm (sched : list Input) : bool :=
  forallb (fun i => match i with Sigterm => false | _ => true end) sched.

(** How many steps of the main thread are left before the process ends,
    from [wait] in the [--quit-when-told] branch on a child that returned
    [c], when [killedByUser] is not set. *)
Definition steps_left (c : Z) (p : MainPC) : option nat :=
  match p with
  | MWait true => Some 4
  | MCheck c' => if bool_decide (c' = c) then Some 3 else None
  | MExit c' => if bool_decide (c' = c) then Some 2 else None
  | MShutdown (Exited c') => if bool_decide (c' = c) then Some 1 else None
  | MHalt (Exited c') => if bool_decide (c' = c) then Some 0 else None
  | _ => None
  end.

(** The listener waits for a datagram and none is queued. *)
Definition waiting (s : State) : Prop :=
  thread s = LRecv /\ inbox s = [] /\ killedByUser s = false /\
  daemon s = true /\ sigterm s = Handler_killAll /\ is_Some (killer s).

(** How a run ends at line 46-49 of [main], when it ends there: the status
    and what was printed.  Decoding raises, or [--interpret] asks for the
    descriptor to be printed. *)
Definition decode_outcome (a : Namespace) : option (Status * list Event) :=
  match interpret (detailsHexedPickle a) with
  | inl e => Some (Uncaught e, [])
  | inr details =>
      if arg_interpret a then Some (Exited 0, [EvPprint details]) else None
  end.

(** The states of a run that ends there with status [st] after the events
    [out]; a SIGTERM, not handled yet, may end it before. *)
Definition Short (a : Namespace) (st : Status) (out : list (Thread * Event))
    (s : State) (tr : list (Thread * Event)) : Prop :=
  thread s = LIdle /\ sigterm s = SIG_DFL /\ subProcess s = NoChild /\
  match pc s with
  | MParse argv => parse_args argv = inr a /\ tr = []
  | MDecode a' => a' = a /\ tr = []
  | MShutdown st' => st' = st /\ tr = out
  | MHalt st' =>
      (st' = st /\ tr = out) \/
      (st' = Killed SIGTERM /\ (tr = [] \/ tr = out))
  | _ => False
  end.

(** The steps of the main thread that are left in such a run. *)
Definition short_left (p : MainPC) : nat :=
  match p with
  | MParse _ => 3
  | MDecode _ => 2
  | MShutdown _ => 1
  | _ => 0
  end.

(** ** A sample supervisor *)

(** A descriptor, an unpickler that knows it (the token [4a4b] is the hex
    form of the two bytes it answers to), a launcher whose children get the
    pid 101, and a supervisor of pid 100. *)
Definition ex_details : PyVal :=
  PyDict (<["popenDetails" :=
              PyDict (<["args" := PyTuple [PyStr "sleep 3"]]>
                      (<["kwargs" := PyDict ∅]> ∅))]>
          (<["peer" := PyTuple [PyStr "10.0.0.1"; PyInt 64000]]> ∅)).

Definition ex_loads (pickled : string) : result PyVal :=
  if String.eqb pickled "JK" then ret ex_details
  else inl (Raise "UnpicklingError" "invalid load key").

Definition ex_Popen (args kwargs : PyVal) : result Z := ret 101%Z.

Definition ex_pid : Z := 100.

Definition ex_argv : list string := ["4a4b"; "--quit-when-told"].

Definition ex_arguments : Namespace :=
  {| detailsHexedPickle := "4a4b"; arg_killer := "terminate";
     quitWhenTold := true; arg_interpret := false |}.

Definition ex_argv_kill : list string :=
  ["4a4b"; "--killer"; "kill"; "--quit-when-told"].

Definition ex_arguments_kill : Namespace :=
  {| detailsHexedPickle := "4a4b"; arg_killer := "kill";
     quitWhenTold := true; arg_interpret := false |}.

Definition ex_argv_interpret : list string := ["--interpret"; "4a4b"].

Definition ex_arguments_interpret : Namespace :=
  {| detailsHexedPickle := "4a4b"; arg_killer := "terminate";
     quitWhenTold := false; arg_interpret := true |}.

Definition ex_argv_bad : list string := ["zz"].

Definition ex_arguments_bad : Namespace :=
  {| detailsHexedPickle := "zz"; arg_killer := "terminate";
     quitWhenTold := false; arg_interpret := false |}.

(** The main thread up to [wait], then the listener up to [recv]. *)
Definition ex_listening : list Input :=
  [RunMain; RunMain; RunMain; RunMain; RunMain; RunListener; RunListener].

(** The child exits with 7 on its own and the main thread goes to its end. *)
Definition ex_natural : list Input :=
  ex_listening ++ [ChildExit 7; RunMain; RunMain; RunMain; RunMain].

(** The child has a child of its own, 102; 103 belongs to someone else. *)
Definition ex_table : gmap Z Z :=
  <[101%Z := 100%Z]> (<[102%Z := 101%Z]> (<[103%Z := 1%Z]> ∅)).

(** A datagram arrives; the listener is about to call [killAll]. *)
Definition ex_told : list Input :=
  ex_listening ++
  [Procs ex_table; Datagram "die"; RunListener; RunListener].

(** The listener calls [killAll], the child dies of the signal, and the main
    thread joins the listener and exits. *)
Definition ex_joined : list Input :=
  ex_told ++
  [RunListener; ChildExit (-15); RunMain; RunMain; RunMain; RunMain; RunMain].

(** ** More vocabulary: the token, the process tree *)

(** The token is a string of hexadecimal digits. *)
Definition is_hex (c : ascii) : bool :=
  match hex_digit c with
  | Some _ => true
  | None => false
  end.

Fixpoint all_hex (s : string) : bool :=
  match s with
  | EmptyString => true
  | String c rest => is_hex c && all_hex rest
  end.

(** ** More vocabulary: the main thread's plan *)

(** A call of a kill method. *)
Definition is_kill_call (e : Event) : bool :=
  match e with
  | EvCall _ _ => true
  | _ => false
  end.

(** What the main thread itself has done, the calls of the SIGTERM handler
    (which runs on the main thread, whenever the signal comes) left out. *)
Definition skeleton (tr : list (Thread * Event)) : list Event :=
  List.filter (fun e => negb (is_kill_call e)) (events_of Main tr).

Definition opt (b : bool) (e : Event) : list Event :=
  if b then [e] else [].

(** Lines 37-57 of [main] read as a sequential program: what the main thread
    does before [wait], the peer its listener connects to, the status it
    ends with if it ends before [wait], and the number of its steps up to
    that end (up to [wait], if it gets there). *)
Record Plan := {
  plan_events : list Event;
  plan_peer : option PyVal;
  plan_abort : option Status;
  plan_steps : nat
}.

Definition plan_branch (a : Namespace) (details args kwargs : PyVal) : Plan :=
  if quitWhenTold a then
    match getitem details "peer" with
    | inl e =>
        {| plan_events := [EvPopen args kwargs; EvSignalHandler];
           plan_peer := None; plan_abort := Some (Uncaught e);
           plan_steps := 6 |}
    | inr peer =>
        {| plan_events := [EvPopen args kwargs; EvSignalHandler;
                           EvThreadStart];
           plan_peer := Some peer; plan_abort := None; plan_steps := 5 |}
    end
  else
    {| plan_events := [EvPopen args kwargs; EvSignalHandler];
       plan_peer := None; plan_abort := None; plan_steps := 5 |}.

Definition plan_popen (a : Namespace) (details : PyVal) : Plan :=
  match spawn details with
  | inl e =>
      {| plan_events := []; plan_peer := None;
         plan_abort := Some (Uncaught e); plan_steps := 4 |}
  | inr (args, kwargs, _) => plan_branch a details args kwargs
  end.

Definition plan_decode (a : Namespace) : Plan :=
  match interpret (detailsHexedPickle a) with
  | inl e =>
      {| plan_events := []; plan_peer := None;
         plan_abort := Some (Uncaught e); plan_steps := 3 |}
  | inr details =>
      if arg_interpret a
      then {| plan_events := [EvPprint details]; plan_peer := None;
              plan_abort := Some (Exited 0); plan_steps := 3 |}
      else plan_popen a details
  end.

Definition plan (argv : list string) : Plan :=
  match parse_args argv with
  | inl status =>
      {| plan_events := []; plan_peer := None;
         plan_abort := Some (Exited status); plan_steps := 2 |}
  | inr a => plan_decode a
  end.

(** The main thread follows its plan: where it stands, what it has done so
    far, and how the run has ended if it has. *)
Definition Follows (argv : list string) (s : State)
    (tr : list (Thread * Event)) : Prop :=
  (sigterm s = Handler_killAll -> is_Some (killer s)) /\
  (forall peer,
     thread s = LConnect peer \/ In (Listener, EvConnect peer) tr ->
     plan_peer (plan argv) = Some peer) /\
  match pc s with
  | MParse argv' =>
      argv' = argv /\ skeleton tr = [] /\ sigterm s = SIG_DFL
  | MDecode a =>
      plan argv = plan_decode a /\ skeleton tr = [] /\
      sigterm s = SIG_DFL /\ is_Some (killer s)
  | MPopen a d =>
      plan argv = plan_popen a d /\ skeleton tr = [] /\
      sigterm s = SIG_DFL /\ is_Some (killer s)
  | MSignal a d =>
      exists x y,
        plan argv = plan_branch a d x y /\ skeleton tr = [EvPopen x y] /\
        sigterm s = SIG_DFL /\ is_Some (killer s)
  | MBranch a d =>
      exists x y,
        plan argv = plan_branch a d x y /\
        skeleton tr = [EvPopen x y; EvSignalHandler] /\
        sigterm s = Handler_killAll
  | MWait _ | MCheck _ | MJoin _ =>
      plan_abort (plan argv) = None /\
      skeleton tr = plan_events (plan argv) /\
      sigterm s = Handler_killAll
  | MExit _ =>
      plan_abort (plan argv) = None /\
      (exists j, skeleton tr = plan_events (plan argv) ++ opt j EvJoin) /\
      sigterm s = Handler_killAll
  | MShutdown st =>
      (plan_abort (plan argv) = Some st /\
       skeleton tr = plan_events (plan argv)) \/
      (plan_abort (plan argv) = None /\ sigterm s = Handler_killAll /\
       exists c j,
         st = Exited c /\
         skeleton tr = plan_events (plan argv) ++ opt j EvJoin ++ [EvExit c])
  | MHalt st =>
      (plan_abort (plan argv) = Some st /\
       skeleton tr = plan_events (plan argv)) \/
      (plan_abort (plan argv) = None /\
       exists c j,
         st = Exited c /\
         skeleton tr = plan_events (plan argv) ++ opt j EvJoin ++ [EvExit c])
      \/
      (st = Killed SIGTERM /\ skeleton tr `prefix_of` plan_events (plan argv))
  end.

(** ** More vocabulary: what a run has done so far *)

(** Has the listener thread been started?  Is the handler installed?  Has a
    child been launched? *)
Definition started (l : ListenerPC) : bool :=
  match l with
  | LIdle => false
  | _ => true
  end.

Definition installed (h : Handler) : bool :=
  match h with
  | SIG_DFL => false
  | Handler_killAll => true
  end.

Definition launched (c : Child) : bool :=
  match c with
  | NoChild => false
  | _ => true
  end.

Definition is_popen (e : Event) : bool :=
  match e with EvPopen _ _ => true | _ => false end.

Definition is_handler (e : Event) : bool :=
  match e with EvSignalHandler => true | _ => false end.

Definition is_start (e : Event) : bool :=
  match e with EvThreadStart => true | _ => false end.

(** Some event of the thread [t] in the run is of the kind [f]. *)
Definition seen (t : Thread) (f : Event -> bool)
    (tr : list (Thread * Event)) : bool :=
  existsb f (events_of t tr).

(** What the events of a run tell about its state, and the order in which
    the main thread sets things up: the child is launched by the time the handler is
    installed, the handler by the time the listener is started or anything
    is killed, a listener that was not
    started has done nothing, and a started one is a daemon. *)
Definition Guarded (s : State) (tr : list (Thread * Event)) : Prop :=
  seen Main is_handler tr = installed (sigterm s) /\
  seen Main is_start tr = started (thread s) /\
  seen Main is_popen tr = launched (subProcess s) /\
  (started (thread s) = false ->
     events_of Listener tr = [] /\ killedByUser s = false /\ inbox s = []) /\
  (started (thread s) = true -> daemon s = true) /\
  (seen Main is_kill_call tr = true -> installed (sigterm s) = true) /\
  (seen Listener is_kill_call tr = true -> installed (sigterm s) = true) /\
  (started (thread s) = true -> installed (sigterm s) = true) /\
  (installed (sigterm s) = true -> launched (subProcess s) = true) /\
  match pc s with
  | MSignal _ _ => launched (subProcess s) = true
  | MBranch _ _ => sigterm s = Handler_killAll
  | _ => True
  end.

(** Every call of a kill method comes after the launch of the child and
    the installation of the handler. *)
Definition KillsLate (tr : list (Thread * Event)) : Prop :=
  forall tr1 t p m tr2,
    tr = tr1 ++ (t, EvCall p m) :: tr2 ->
    seen Main is_popen tr1 = true /\ seen Main is_handler tr1 = true.


(** The steps the main thread has left, at most, on a plan of [n] steps
    that ends before [wait]. *)
Definition plan_left (n : nat) (p : MainPC) : nat :=
  match p with
  | MParse _ => n
  | MDecode _ => n - 1
  | MPopen _ _ => n - 2
  | MSignal _ _ => 3
  | MBranch _ _ => 2
  | MShutdown _ => 1
  | _ => 0
  end.

Definition is_join (e : Event) : bool :=
  match e with EvJoin => true | _ => false end.

(** No datagram has reached the listener: it has received nothing and
    killed nothing, and the main thread has not joined it. *)
Definition Untold (s : State) (tr : list (Thread * Event)) : Prop :=
  inbox s = [] /\ has_received (thread s) = false /\
  killedByUser s = false /\
  seen Listener is_recv tr = false /\
  seen Listener is_kill_call tr = false /\
  seen Main is_join tr = false /\
  match pc s with
  | MJoin _ => False
  | _ => True
  end.

(** A run with the content of its datagrams forgotten: in the schedule, in
    the queue of the socket, in what [recv] returned. *)
Definition blank (i : Input) : Input :=
  match i with
  | Datagram _ => Datagram ""
  | _ => i
  end.

Definition blank_event (te : Thread * Event) : Thread * Event :=
  match te with
  | (t, EvRecv _) => (t, EvRecv "")
  | _ => te
  end.

Definition blank_state (s : State) : State :=
  set_inbox s (List.map (fun _ => "") (inbox s)).

(** ** More samples *)

Definition ex_argv_plain : list string := ["4a4b"].

Definition ex_arguments_plain : Namespace :=
  {| detailsHexedPickle := "4a4b"; arg_killer := "terminate";
     quitWhenTold := false; arg_interpret := false |}.

(** A launcher that does not find the program. *)
Definition ex_OSError : PyExc :=
  Raise "OSError" "[Errno 2] No such file or directory".

Definition ex_Popen_fails (args kwargs : PyVal) : result Z := inl ex_OSError.

(** A descriptor without a peer, and an unpickler that answers with it. *)
Definition ex_details_nopeer : PyVal :=
  PyDict (<["popenDetails" :=
              PyDict (<["args" := PyTuple [PyStr "sleep 3"]]>
                      (<["kwargs" := PyDict ∅]> ∅))]> ∅).

Definition ex_loads_nopeer (pickled : string) : result PyVal :=
  ret ex_details_nopeer.

(** The main thread up to the launch of the child, the handler not yet
    installed. *)
Definition ex_launched : list Input := [RunMain; RunMain; RunMain].

(** The run of [ex_told] with another datagram. *)
Definition ex_told_otherwise : list Input :=
  ex_listening ++
  [Procs ex_table; Datagram "carry on"; RunListener; RunListener].

(** The child exits on its own and the main thread has called [sys.exit],
    the listener still waiting in [recv]. *)
Definition ex_exiting : list Input :=
  ex_listening ++ [ChildExit 7; RunMain; RunMain; RunMain].

(** * Properties *)

(** ** Chains of parents *)

Lemma up_add tbl a b p :
  up tbl (a + b) p = match up tbl a p with Some q => up tbl b q | None => None end.
Proof.
  revert p. induction a as [|a IH]; intros p; simpl; [done|].
  destruct (parent tbl p); [apply IH | done].
Qed.

Lemma descendant_up tbl me p :
  descendant tbl me p <-> exists n, up tbl (S n) p = Some me.
Proof.
  split.
  - induction 1 as [p Hp | p q Hp _ [n IH]].
    + exists 0. simpl. by rewrite Hp.
    + exists (S n). change (up tbl (S (S n)) p) with
        (match parent tbl p with Some q => up tbl (S n) q | None => None end).
      by rewrite Hp.
  - intros [n Hn]. revert p Hn. induction n as [|n IH]; intros p Hn.
    + simpl in Hn. destruct (parent tbl p) as [q|] eqn:Hp; [|done].
      apply desc_child. congruence.
    + change (up tbl (S (S n)) p) with
        (match parent tbl p with Some q => up tbl (S n) q | None => None end)
        in Hn.
      destruct (parent tbl p) as [q|] eqn:Hp; [|done].
      eapply desc_step; eauto.
Qed.

Lemma up_S tbl n p q :
  parent tbl p = Some q -> up tbl (S n) p = up tbl n q.
Proof. intros Hp. simpl. by rewrite Hp. Qed.

Lemma up_S_None tbl n p :
  parent tbl p = None -> up tbl (S n) p = None.
Proof. intros Hp. simpl. by rewrite Hp. Qed.

Lemma reaches_up fuel tbl me p :
  reaches fuel tbl me p = true <->
  exists n, n < fuel /\ up tbl (S n) p = Some me.
Proof.
  revert p. induction fuel as [|fuel IH]; intros p.
  - split; [done | intros (n & Hn & _); lia].
  - cbn [reaches]. destruct (parent tbl p) as [q|] eqn:Hp.
    + rewrite orb_true_iff, bool_decide_eq_true, IH. split.
      * intros [-> | (n & Hn & Hup)].
        -- exists 0. split; [lia|]. by rewrite (up_S _ _ _ _ Hp).
        -- exists (S n). split; [lia|]. by rewrite (up_S _ _ _ _ Hp).
      * intros ([|n] & Hn & Hup); rewrite (up_S _ _ _ _ Hp) in Hup.
        -- left. simpl in Hup. congruence.
        -- right. exists n. split; [lia | done].
    + split; [done|]. intros (n & _ & Hup).
      by rewrite (up_S_None _ _ _ Hp) in Hup.
Qed.

Lemma up_delete tbl x k q :
  (forall i, i < k -> up tbl i q <> Some x) ->
  up (delete x tbl) k q = up tbl k q.
Proof.
  revert q. induction k as [|k IH]; intros q Hq; [done|].
  assert (q <> x) as Hne.
  { intros ->. by apply (Hq 0); [lia|]. }
  simpl. unfold parent. rewrite lookup_delete_ne by done.
  destruct (tbl !! q) as [r|] eqn:Hr; [|done].
  apply IH. intros i Hi Hup. apply (Hq (S i)); [lia|].
  simpl. unfold parent. by rewrite Hr.
Qed.

Lemma up_delete_Some tbl x k q y :
  up (delete x tbl) k q = Some y -> up tbl k q = Some y.
Proof.
  revert q. induction k as [|k IH]; intros q; [done|].
  simpl. unfold parent.
  destruct (delete x tbl !! q) as [r|] eqn:Hr; [|done].
  apply lookup_delete_Some in Hr as [_ ->]. apply IH.
Qed.

(** A shortest chain of parents never visits a pid twice, so it has fewer
    links than the table has entries. *)
Lemma shortest_chain_bound me n : forall tbl p,
  up tbl (S n) p = Some me ->
  (forall m, m < n -> up tbl (S m) p <> Some me) ->
  n < size tbl.
Proof.
  induction n as [|n IH]; intros tbl p Hup Hmin.
  - simpl in Hup. destruct (parent tbl p) as [q|] eqn:Hp; [|done].
    unfold parent in Hp.
    destruct (decide (size tbl = 0)) as [Hz|]; [|lia].
    apply map_size_empty_iff in Hz. subst tbl. by rewrite lookup_empty in Hp.
  - change (up tbl (S (S n)) p) with
      (match parent tbl p with Some q => up tbl (S n) q | None => None end)
      in Hup.
    destruct (parent tbl p) as [q|] eqn:Hp; [|done].
    assert (forall i, i < S n -> up tbl i q <> Some p) as Havoid.
    { intros i Hi Hq. apply (Hmin (n - i)); [lia|].
      replace (S n) with (i + S (n - i)) in Hup by lia.
      rewrite up_add, Hq in Hup. done. }
    assert (n < size (delete p tbl)) as Hlt.
    { apply (IH _ q).
      - by rewrite up_delete.
      - intros m Hm Hq. apply up_delete_Some in Hq.
        apply (Hmin (S m)); [lia|].
        change (up tbl (S (S m)) p) with
          (match parent tbl p with Some q => up tbl (S m) q | None => None end).
        by rewrite Hp. }
    unfold parent in Hp.
    rewrite map_size_delete, Hp in Hlt. lia.
Qed.

Lemma least_below (P : nat -> Prop) (dec : forall n, Decision (P n)) n :
  (forall m, m < n -> ~ P m) \/
  (exists k, k < n /\ P k /\ forall m, m < k -> ~ P m).
Proof.
  induction n as [|n [IH | (k & Hk & HP & Hmin)]].
  - left. intros m Hm. lia.
  - destruct (decide (P n)) as [Hn | Hn].
    + right. exists n. split; [lia | done].
    + left. intros m Hm. destruct (decide (m = n)) as [-> | ?]; [done|].
      apply IH. lia.
  - right. exists k. split; [lia | done].
Qed.

Lemma least_witness (P : nat -> Prop) (dec : forall n, Decision (P n)) n :
  P n -> exists k, P k /\ forall m, m < k -> ~ P m.
Proof.
  intros Hn. destruct (least_below P dec n) as [Hmin | (k & _ & HP & Hmin)].
  - by exists n.
  - by exists k.
Qed.

Lemma children_recursive_spec tbl me p :
  In p (children_recursive tbl me) <-> descendant tbl me p.
Proof.
  unfold children_recursive.
  rewrite filter_In, <- list_elem_of_In, elem_of_elements, elem_of_dom.
  rewrite reaches_up, descendant_up. split.
  - intros (_ & n & _ & Hn). eauto.
  - intros (n & Hn).
    destruct (least_witness (fun k => up tbl (S k) p = Some me) _ n Hn)
      as (k & Hk & Hmin).
    split.
    + simpl in Hk. unfold parent in Hk. destruct (tbl !! p); [eauto | done].
    + exists k. split; [|done]. eapply shortest_chain_bound; eauto.
Qed.

(** ** The subtree kill *)

Lemma killAll_loop_Some m ps :
  killAll_loop (Some m) ps = (calls m ps, None).
Proof.
  induction ps as [|p ps IH]; [done|]. simpl. by rewrite IH.
Qed.

Lemma killAll_Some args m tbl me :
  killAll args (Some m) tbl me = (calls m (children_recursive tbl me), None).
Proof. apply killAll_loop_Some. Qed.

(** ** Runs and invariants *)

Lemma exec_app sched1 sched2 s :
  exec (sched1 ++ sched2) s =
  let '(s1, tr1) := exec sched1 s in
  let '(s2, tr2) := exec sched2 s1 in
  (s2, tr1 ++ tr2).
Proof.
  revert s. induction sched1 as [|i sched1 IH]; intros s; simpl.
  - by destruct (exec sched2 s).
  - destruct (step s i) as [s1 evs1]. rewrite IH.
    destruct (exec sched1 s1) as [s2 tr2].
    destruct (exec sched2 s2) as [s3 tr3]. by rewrite app_assoc.
Qed.

(** A property of states and histories that every transition preserves
    holds along every run. *)
Lemma exec_invariant (I : State -> list (Thread * Event) -> Prop) :
  (forall s tr i, I s tr -> I (fst (step s i)) (tr ++ snd (step s i))) ->
  forall sched s tr,
    I s tr -> I (fst (exec sched s)) (tr ++ snd (exec sched s)).
Proof.
  intros Hstep sched. induction sched as [|i sched IH]; intros s tr HI; simpl.
  - by rewrite app_nil_r.
  - specialize (Hstep s tr i HI). destruct (step s i) as [s1 evs1].
    specialize (IH s1 _ Hstep). destruct (exec sched s1) as [s2 evs2].
    simpl in *. by rewrite app_assoc.
Qed.

Ltac case_step :=
  repeat match goal with
  | |- context [match ?x with _ => _ end] =>
      lazymatch x with
      | context [match _ with _ => _ end] => fail
      | _ => destruct x eqn:?
      end
  end.

Lemma boot_Inv argv a : parse_args argv = inr a -> Inv a (boot argv).
Proof. intros H. unfold Inv. simpl. done. Qed.

Ltac step_split s i :=
  unfold step, by_thread, main, quitWhenToldServer, deliver_sigterm;
  destruct s as [k kbu p th d sg sp ib pt];
  cbn [pc thread killer killedByUser daemon sigterm subProcess inbox procs];
  destruct p; try done; destruct i; case_step;
  cbn [fst snd List.map set_pc set_killer set_killedByUser set_thread
       set_daemon set_sigterm set_subProcess set_inbox set_procs
       pc thread killer killedByUser daemon sigterm subProcess inbox procs].

Lemma step_Inv a s i : Inv a s -> Inv a (fst (step s i)).
Proof.
  intros H. step_split s i; unfold Inv in *; simpl in *; try exact H;
    try (destruct_and?; simplify_eq/=; repeat split; eauto; congruence);
    try (destruct told); naive_solver.
Qed.

Lemma in_tagged (t t' : Thread) (e : Event) (evs : list Event) :
  In (t, e) (List.map (pair t') evs) <-> t = t' /\ In e evs.
Proof.
  rewrite in_map_iff. split.
  - intros (e' & [= -> ->] & He). done.
  - intros [-> He]. eauto.
Qed.

Lemma in_tagged_calls (t t' : Thread) (e : Event) m ps :
  In (t, e) (List.map (pair t') (calls m ps)) <->
  t = t' /\ exists p, e = EvCall p m /\ In p ps.
Proof.
  rewrite in_tagged. unfold calls. rewrite in_map_iff. naive_solver.
Qed.

Ltac kill_known :=
  repeat match goal with
  | H : killAll _ (Some _) _ _ = _ |- _ =>
      rewrite killAll_Some in H; simplify_eq
  end.

Ltac use_Inv H :=
  unfold Inv in H; simpl in H; destruct_and?; simplify_eq/=; kill_known;
  try (exfalso; congruence).

Lemma step_InvExit a s tr i :
  Inv a s -> InvExit s tr -> InvExit (fst (step s i)) (tr ++ snd (step s i)).
Proof.
  intros HI H. step_split s i; use_Inv HI;
    unfold InvExit in *; simpl in *; intros e;
    rewrite ?app_nil_r, ?in_app_iff, ?in_tagged_calls; simpl;
    try (intros He; by destruct (H e He));
    try naive_solver.
Qed.

Lemma step_InvStatus a s tr i :
  Inv a s -> InvStatus a s tr ->
  InvStatus a (fst (step s i)) (tr ++ snd (step s i)).
Proof.
  intros HI H. step_split s i; use_Inv HI;
    unfold InvStatus in *; simpl in *; intros c;
    rewrite ?app_nil_r, ?in_app_iff, ?in_tagged_calls; simpl;
    try (intros He; by destruct (H c He); auto);
    try naive_solver.
Qed.

Lemma step_InvJoin a s tr i :
  Inv a s -> InvJoin s tr -> InvJoin (fst (step s i)) (tr ++ snd (step s i)).
Proof.
  intros HI H. step_split s i; use_Inv HI;
    unfold InvJoin in *; simpl in *;
    rewrite ?app_nil_r, ?in_app_iff, ?in_tagged_calls; simpl;
    try exact H;
    try naive_solver;
    try (destruct th; naive_solver).
Qed.

Lemma step_InvCalls a s tr i :
  Inv a s -> InvCalls a tr -> InvCalls a (tr ++ snd (step s i)).
Proof.
  intros HI H. step_split s i; use_Inv HI;
    unfold InvCalls in *; simpl in *; intros t q m;
    rewrite ?app_nil_r, ?in_app_iff, ?in_tagged_calls; simpl;
    try apply H;
    try naive_solver.
Qed.

Lemma events_of_app t tr1 tr2 :
  events_of t (tr1 ++ tr2) = events_of t tr1 ++ events_of t tr2.
Proof. unfold events_of. by rewrite List.filter_app, List.map_app. Qed.

Lemma events_of_same t (evs : list Event) :
  events_of t (List.map (pair t) evs) = evs.
Proof.
  unfold events_of. induction evs as [|e evs IH]; [done|].
  destruct t; simpl; by rewrite IH.
Qed.

Lemma events_of_Listener_Main (evs : list Event) :
  events_of Listener (List.map (pair Main) evs) = [].
Proof. unfold events_of. induction evs as [|e evs IH]; [done|]. exact IH. Qed.

Lemma step_Shape a s tr i :
  Inv a s -> Shape (thread s) (events_of Listener tr) ->
  Shape (thread (fst (step s i)))
        (events_of Listener (tr ++ snd (step s i))).
Proof.
  intros HI H. rewrite events_of_app.
  step_split s i; use_Inv HI;
    rewrite ?events_of_Listener_Main, ?events_of_same, ?app_nil_r;
    try exact H;
    change (events_of Listener []) with (@nil Event);
    rewrite ?app_nil_r; try exact H.
  all: repeat match type of H with ex _ => destruct H as [? H] end;
    rewrite H; unfold events_of; simpl; eauto 10.
Qed.

Lemma run_Hist argv a sched :
  parse_args argv = inr a ->
  Hist a (fst (exec sched (boot argv))) (snd (exec sched (boot argv))).
Proof.
  intros Hparse.
  apply (exec_invariant (Hist a)) with (tr := []).
  - intros s tr i (HI & HE & HS & HJ & HC & HL).
    refine (conj _ (conj _ (conj _ (conj _ (conj _ _))))).
    + by apply step_Inv.
    + by apply (step_InvExit a).
    + by apply step_InvStatus.
    + by apply (step_InvJoin a).
    + by apply step_InvCalls.
    + by apply (step_Shape a).
  - refine (conj _ (conj _ (conj _ (conj _ (conj _ _))))).
    + by apply boot_Inv.
    + intros e [].
    + intros c [Hc | Hc]; discriminate Hc.
    + intros [].
    + intros t p m [].
    + reflexivity.
Qed.

(** ** The command line *)





(** ** The exit code *)







(** ** The subtree kill along a run *)


Lemma runs_killAll_step s i t :
  runs_killAll s i = Some t ->
  snd (step s i) =
  List.map (pair t) (fst (killAll [] (killer s) (procs s) getpid)).
Proof.
  unfold runs_killAll, step, by_thread, quitWhenToldServer, deliver_sigterm.
  intros Hr.
  destruct (pc s); try discriminate Hr; destruct i; try discriminate Hr;
    destruct (thread s); try discriminate Hr;
    destruct (sigterm s); try discriminate Hr;
    unfold killAll in *;
    destruct (killAll_loop (killer s) (children_recursive (procs s) getpid))
      as [evs [e|]];
    by inversion Hr.
Qed.


(** C6. The SIGTERM handler and the listener run the same routine: in a
    state where both can run [killAll], the signal makes the calls the
    listener's last statement makes, on the same processes with the same
    method. *)
Theorem sigterm_kills_like_listener (s : State) :
  runs_killAll s Sigterm = Some Main ->
  runs_killAll s RunListener = Some Listener ->
  List.map snd (snd (step s Sigterm)) =
    List.map snd (snd (step s RunListener)) /\
  (forall p m, In (Main, EvCall p m) (snd (step s Sigterm)) <->
               In (Listener, EvCall p m) (snd (step s RunListener))).
Proof.
  intros Hsig Hlis.
  rewrite (runs_killAll_step s Sigterm Main Hsig).
  rewrite (runs_killAll_step s RunListener Listener Hlis).
  split.
  - rewrite !List.map_map. simpl. done.
  - intros p m. rewrite !in_tagged. naive_solver.
Qed.


(** ** The listener's history *)

Lemma count_app f l1 l2 : count f (l1 ++ l2) = count f l1 + count f l2.
Proof. unfold count. by rewrite List.filter_app, length_app. Qed.

Lemma count_calls f m ps :
  (forall p, f (EvCall p m) = false) -> count f (calls m ps) = 0.
Proof.
  intros Hf. unfold count. induction ps as [|p ps IH]; [done|].
  simpl. by rewrite Hf.
Qed.

Lemma Shape_counts l evs :
  Shape l evs ->
  count is_send evs = (if has_sent l then 1 else 0) /\
  count is_recv evs = (if has_received l then 1 else 0).
Proof.
  unfold Shape. intros H.
  destruct l;
    repeat match type of H with ex _ => destruct H as [? H] end;
    subst evs; rewrite ?count_app, ?count_calls by done; done.
Qed.

Lemma Shape_prefix l evs :
  Shape l evs ->
  exists peer data m ps,
    evs `prefix_of` [EvConnect peer; EvSend "hi"; EvRecv data] ++ calls m ps.
Proof.
  unfold Shape. intros H.
  destruct l;
    repeat match type of H with ex _ => destruct H as [? H] end;
    subst evs.
  - exists PyNone, "", "", []. apply prefix_nil.
  - exists PyNone, "", "", []. apply prefix_nil.
  - exists x, "", "", []. by eexists.
  - exists x, "", "", []. by eexists.
  - exists x, x0, "", []. by eexists.
  - exists x, x0, "", []. by eexists.
  - exists x, x0, x1, x2. done.
Qed.

(** C3, as the code has it.  The listener's history is always a beginning of
    "connect, send [hi], receive, then the calls of the subtree kill": the
    one datagram it sends goes out first, before it waits, so before the
    receipt and before the kill, and nothing is sent on receipt.  While it
    waits on an empty socket its step does nothing; on a datagram the step
    is the receive alone. *)
Theorem listener_sends_before_waiting argv a sched :
  parse_args argv = inr a ->
  let s := fst (exec sched (boot argv)) in
  let tr := snd (exec sched (boot argv)) in
  (exists peer data m ps,
     events_of Listener tr `prefix_of`
       [EvConnect peer; EvSend "hi"; EvRecv data] ++ calls m ps) /\
  (thread s = LRecv ->
     exists peer, events_of Listener tr = [EvConnect peer; EvSend "hi"]) /\
  (thread s = LRecv -> inbox s = [] -> step s RunListener = (s, [])) /\
  (forall data rest,
     thread s = LRecv -> inbox s = data :: rest -> is_halted (pc s) = false ->
     step s RunListener =
       (set_thread (set_inbox s rest) LFlag,
        [(Listener, EvRecv (String.substring 0 1024 data))])).
Proof.
  intros Hparse s tr.
  destruct (run_Hist argv a sched Hparse) as (_ & _ & _ & _ & _ & HL).
  fold s tr in HL. split; [by eapply Shape_prefix|]. split; [|split].
  - intros Hth. by rewrite Hth in HL.
  - intros Hth Hib. unfold step, by_thread, quitWhenToldServer.
    rewrite Hth, Hib. by destruct (pc s), s.
  - intros data rest Hth Hib Hpc.
    unfold step, by_thread, quitWhenToldServer. rewrite Hth, Hib.
    by destruct (pc s).
Qed.

(** C9. In every run the listener sends at most one datagram and receives
    at most one; once it waits for the datagram it has sent exactly one;
    once it has received one, it has sent one and received one, and
    whatever happens next it neither sends nor receives again. *)
Theorem control_channel_single_shot argv a sched sched' :
  parse_args argv = inr a ->
  let s := fst (exec sched (boot argv)) in
  let past := events_of Listener (snd (exec sched (boot argv))) in
  let later := events_of Listener (snd (exec sched' s)) in
  count is_send past <= 1 /\ count is_recv past <= 1 /\
  (has_sent (thread s) = true -> count is_send past = 1) /\
  (has_received (thread s) = true ->
     count is_send past = 1 /\ count is_recv past = 1 /\
     count is_send later = 0 /\ count is_recv later = 0).
Proof.
  intros Hparse s past later.
  destruct (run_Hist argv a sched Hparse) as (_ & _ & _ & _ & _ & HL).
  destruct (run_Hist argv a (sched ++ sched') Hparse)
    as (_ & _ & _ & _ & _ & HL').
  rewrite exec_app in HL'.
  destruct (exec sched (boot argv)) as [s1 tr1] eqn:E1. simpl in s, past, HL.
  subst s. destruct (exec sched' s1) as [s2 tr2] eqn:E2.
  simpl in later, HL'. rewrite events_of_app in HL'.
  fold past in HL. fold past later in HL'.
  apply Shape_counts in HL as [Hs Hr]. apply Shape_counts in HL' as [Hs' Hr'].
  rewrite count_app in Hs', Hr'.
  destruct (thread s1), (thread s2); simpl in *;
    repeat split; try discriminate; lia.
Qed.

(** ** Joining the listener *)

(** C4, as the code has it.  After the child has finished the main thread
    reads [killedByUser]: if it is set it goes on to [join], where it stays
    as long as the listener runs, so that a [join] that returned left a
    finished listener behind; if it is not set the main thread goes on to
    [sys.exit] without joining, and the process ends with the listener
    wherever it was. *)
Theorem join_only_when_told argv a sched :
  parse_args argv = inr a ->
  let s := fst (exec sched (boot argv)) in
  let tr := snd (exec sched (boot argv)) in
  (forall c, pc s = MCheck c ->
     step s RunMain =
       (set_pc s (if killedByUser s then MJoin c else MExit c), [])) /\
  (forall c, pc s = MJoin c -> is_alive (thread s) = true ->
     step s RunMain = (s, [])) /\
  (In (Main, EvJoin) tr -> thread s = LDone) /\
  (forall c, pc s = MCheck c -> killedByUser s = false ->
     let r := exec [RunMain; RunMain; RunMain] s in
     pc (fst r) = MHalt (Exited c) /\ snd r = [(Main, EvExit c)] /\
     thread (fst r) = thread s).
Proof.
  intros Hparse s tr.
  destruct (run_Hist argv a sched Hparse) as (HI & _ & _ & HJ & _).
  fold s tr in HI, HJ. split; [|split; [|split]].
  - intros c Hc. unfold step, by_thread, main. rewrite Hc.
    by destruct (killedByUser s).
  - intros c Hc Hal. unfold step, by_thread, main. by rewrite Hc, Hal.
  - intros Hin. by destruct (HJ Hin).
  - intros c Hc Hk. destruct HI as (_ & _ & Hd).
    destruct s as [k kbu p th d sg sp ib pt]. simpl in *. subst p kbu.
    destruct th; try (rewrite Hd by done); by destruct d.
Qed.

(** ** A child that exits on its own *)

Lemma waiting_step c pid s i n :
  waiting s ->
  subProcess s = Finished pid c ->
  steps_left c (pc s) = Some n ->
  (forall data, i <> Datagram data) ->
  waiting (fst (step s i)) /\
  subProcess (fst (step s i)) = Finished pid c /\
  steps_left c (pc (fst (step s i))) =
    Some (match i with RunMain => pred n | _ => n end) /\
  ~ In (Main, EvJoin) (snd (step s i)) /\
  (n = 2 -> i = RunMain -> In (Main, EvExit c) (snd (step s i))).
Proof.
  intros (Hth & Hib & Hk & Hd & Hsg & [m Hm]) Hsp Hn Hi.
  destruct s as [k kbu p th d sg sp ib pt]. simpl in *. subst.
  unfold waiting, step, by_thread, main, quitWhenToldServer, deliver_sigterm.
  simpl. rewrite killAll_Some.
  destruct p as [| | | | |[]| | | |[]|[]]; try discriminate Hn;
    simpl in Hn |- *; repeat case_bool_decide; simplify_eq;
    destruct i; simpl; rewrite ?in_tagged_calls;
    try (by destruct (Hi data));
    rewrite ?bool_decide_eq_true_2 by done;
    (split; [by eauto 10|]); (split; [done|]); (split; [done|]);
    (split; [naive_solver|]); intros; simplify_eq; auto.
Qed.

Lemma waiting_exec c pid sched : forall s n,
  waiting s ->
  subProcess s = Finished pid c ->
  steps_left c (pc s) = Some n ->
  no_datagram sched = true ->
  waiting (fst (exec sched s)) /\
  steps_left c (pc (fst (exec sched s))) = Some (n - main_steps sched) /\
  ~ In (Main, EvJoin) (snd (exec sched s)) /\
  (2 <= n -> n - main_steps sched <= 1 ->
   In (Main, EvExit c) (snd (exec sched s))).
Proof.
  induction sched as [|i sched IH]; intros s n Hw Hsp Hn Hnd.
  - unfold main_steps. simpl. rewrite Nat.sub_0_r.
    split; [done|]. split; [done|]. split; [tauto|]. intros; lia.
  - simpl in Hnd. apply andb_true_iff in Hnd as [Hi Hnd].
    assert (forall data, i <> Datagram data) as Hi'.
    { intros data ->. discriminate Hi. }
    destruct (waiting_step c pid s i n Hw Hsp Hn Hi')
      as (Hw1 & Hsp1 & Hn1 & Hj1 & He1).
    simpl. destruct (step s i) as [s1 evs1]. simpl in *.
    destruct (IH s1 _ Hw1 Hsp1 Hn1 Hnd) as (Hw2 & Hn2 & Hj2 & He2).
    destruct (exec sched s1) as [s2 evs2]. simpl in *.
    split; [done|]. split.
    { rewrite Hn2. f_equal. unfold main_steps. destruct i; simpl; lia. }
    split.
    { rewrite in_app_iff. tauto. }
    intros Hge Hle. rewrite in_app_iff. unfold main_steps in *.
    destruct i; simpl in *; try (right; apply He2; lia).
    destruct (decide (n = 2)) as [-> | Hne].
    + left. by apply He1.
    + right. apply He2; lia.
Qed.

Lemma steps_left_0 c p : steps_left c p = Some 0 -> p = MHalt (Exited c).
Proof.
  destruct p as [| | | | |[]| | | |[]|[]]; simpl; try discriminate;
    case_bool_decide; try discriminate; by subst.
Qed.

(** C5. The main thread is in [wait] in the [--quit-when-told] branch, the
    listener waits on its socket and no datagram ever arrives.  When the
    child exits with [c], the third step of the main thread is
    [sys.exit( c )] and the fourth ends the process with status [c],
    whatever else is scheduled in between; the main thread never joins, and
    the listener is still in [recv] when the process ends. *)
Theorem natural_exit_not_blocked argv a sched pid c sched' :
  parse_args argv = inr a ->
  let s := fst (exec sched (boot argv)) in
  pc s = MWait true ->
  thread s = LRecv ->
  inbox s = [] ->
  subProcess s = Running pid ->
  no_datagram sched' = true ->
  let r := exec (ChildExit c :: sched') s in
  thread (fst r) = LRecv /\
  ~ In (Main, EvJoin) (snd r) /\
  (3 <= main_steps sched' -> In (Main, EvExit c) (snd r)) /\
  (4 <= main_steps sched' -> pc (fst r) = MHalt (Exited c)).
Proof.
  intros Hparse s Hpc Hth Hib Hsp Hnd.
  destruct (run_Hist argv a sched Hparse) as (HI & _). fold s in HI.
  unfold Inv in HI. rewrite Hpc, Hth in HI.
  destruct HI as ((Hk & Hsg & _) & Hflag & Hd). simpl in Hflag.
  set (s1 := set_subProcess s (Finished pid c)).
  assert (step s (ChildExit c) = (s1, [])) as Hstep.
  { unfold step. by rewrite Hpc, Hsp. }
  assert (waiting s1) as Hw.
  { unfold waiting, s1. simpl. rewrite Hk. by eauto 10. }
  destruct (waiting_exec c pid sched' s1 4 Hw) as (Hw' & Hn & Hj & He);
    [done | by (unfold s1; simpl; rewrite Hpc) | done |].
  cbn [exec]. rewrite Hstep. destruct (exec sched' s1) as [s2 tr2].
  simpl in *. split; [by destruct Hw'|]. split; [done|]. split.
  - intros Hm. apply He; lia.
  - intros Hm. apply (steps_left_0 c). rewrite Hn. f_equal. lia.
Qed.

(** ** Runs that end at the decoding *)

Lemma hex_pairs_TypeError n : forall s e,
  String.length s <= n -> hex_pairs s = inl e -> exc_class e = "TypeError".
Proof.
  induction n as [|n IH]; intros s e Hlen Hs.
  - destruct s; [done | simpl in Hlen; lia].
  - destruct s as [|c1 [|c2 rest]]; [done | by inversion Hs |].
    simpl in Hlen, Hs.
    destruct (hex_digit c1), (hex_digit c2); try by inversion Hs.
    destruct (hex_pairs rest) as [e0|r] eqn:Hr; simpl in Hs; [|done].
    inversion Hs; subst e0. apply (IH rest); [lia | done].
Qed.

Lemma decode_hex_TypeError s e :
  decode_hex s = inl e -> exc_class e = "TypeError".
Proof.
  unfold decode_hex. destruct (Nat.odd _); [by intros [= <-]|].
  by apply (hex_pairs_TypeError (String.length s)).
Qed.

Lemma step_Short a st evs s tr i :
  decode_outcome a = Some (st, evs) ->
  Short a st (List.map (pair Main) evs) s tr ->
  Short a st (List.map (pair Main) evs)
        (fst (step s i)) (tr ++ snd (step s i)).
Proof.
  unfold decode_outcome, Short. intros Hout (Hth & Hsg & Hsp & H).
  destruct s as [k kbu p th d sg sp ib pt]. simpl in *. subst th sg sp.
  destruct p; try done;
    unfold step, by_thread, main, quitWhenToldServer, deliver_sigterm;
    simpl.
  - destruct H as [Hp ->]. destruct i; simpl; rewrite ?Hp; simpl; auto 10.
  - destruct H as [-> ->].
    destruct i; simpl; auto 10.
    destruct (interpret (detailsHexedPickle a)) as [e | details].
    + inversion Hout; subst. simpl. auto 10.
    + destruct (arg_interpret a); [|done]. inversion Hout; subst.
      simpl. auto 10.
  - destruct H as [-> ->].
    destruct i; simpl; rewrite ?app_nil_r; auto 10.
  - rewrite app_nil_r. auto 10.
Qed.

Lemma run_Short argv a st evs sched :
  parse_args argv = inr a ->
  decode_outcome a = Some (st, evs) ->
  Short a st (List.map (pair Main) evs)
        (fst (exec sched (boot argv))) (snd (exec sched (boot argv))).
Proof.
  intros Hparse Hout.
  apply (exec_invariant (Short a st (List.map (pair Main) evs)))
    with (tr := []).
  - intros s tr i. by apply step_Short.
  - unfold Short. simpl. auto 10.
Qed.

Lemma step_Short_quiet a st evs s tr i :
  decode_outcome a = Some (st, evs) ->
  Short a st (List.map (pair Main) evs) s tr ->
  (forall st', pc s = MHalt st' ->
     st' = st /\ tr = List.map (pair Main) evs) ->
  i <> Sigterm ->
  short_left (pc (fst (step s i))) =
    short_left (pc s) - match i with RunMain => 1 | _ => 0 end /\
  (forall st', pc (fst (step s i)) = MHalt st' ->
     st' = st /\ tr ++ snd (step s i) = List.map (pair Main) evs).
Proof.
  unfold decode_outcome, Short. intros Hout (Hth & Hsg & Hsp & H) Hq Hi.
  destruct s as [k kbu p th d sg sp ib pt]. simpl in *. subst th sg sp.
  destruct p; try done;
    unfold step, by_thread, main, quitWhenToldServer; simpl.
  - destruct H as [Hp ->]. destruct i; simpl; rewrite ?Hp; simpl; done.
  - destruct H as [-> ->].
    destruct i; simpl; try done.
    destruct (interpret (detailsHexedPickle a)) as [e | details].
    + inversion Hout; subst. simpl. done.
    + destruct (arg_interpret a); [|done]. inversion Hout; subst.
      simpl. done.
  - destruct H as [-> ->].
    destruct i; simpl; rewrite ?app_nil_r; try done.
    split; [done|]. by intros st' [= <-].
  - rewrite app_nil_r. split; [done|]. exact Hq.
Qed.

Lemma exec_Short_quiet a st evs sched : forall s tr,
  decode_outcome a = Some (st, evs) ->
  Short a st (List.map (pair Main) evs) s tr ->
  (forall st', pc s = MHalt st' ->
     st' = st /\ tr = List.map (pair Main) evs) ->
  no_sigterm sched = true ->
  short_left (pc (fst (exec sched s))) = short_left (pc s) - main_steps sched /\
  (forall st', pc (fst (exec sched s)) = MHalt st' ->
     st' = st /\ tr ++ snd (exec sched s) = List.map (pair Main) evs).
Proof.
  induction sched as [|i sched IH]; intros s tr Hout HS Hq Hns.
  - unfold main_steps. simpl. rewrite Nat.sub_0_r, app_nil_r. done.
  - simpl in Hns. apply andb_true_iff in Hns as [Hi Hns].
    assert (i <> Sigterm) as Hi' by (intros ->; discriminate Hi).
    pose proof (step_Short a st evs s tr i Hout HS) as HS1.
    destruct (step_Short_quiet a st evs s tr i Hout HS Hq Hi') as [Hl1 Hq1].
    simpl. destruct (step s i) as [s1 evs1]. simpl in *.
    destruct (IH s1 _ Hout HS1 Hq1 Hns) as [Hl2 Hq2].
    destruct (exec sched s1) as [s2 evs2]. simpl in *. split.
    + rewrite Hl2, Hl1. unfold main_steps. destruct i; simpl; lia.
    + intros st' Hst'. rewrite app_assoc. by apply Hq2.
Qed.

Lemma run_Short_ends argv a st evs sched :
  parse_args argv = inr a ->
  decode_outcome a = Some (st, evs) ->
  no_sigterm sched = true ->
  3 <= main_steps sched ->
  pc (fst (exec sched (boot argv))) = MHalt st /\
  snd (exec sched (boot argv)) = List.map (pair Main) evs.
Proof.
  intros Hparse Hout Hns Hm.
  assert (Short a st (List.map (pair Main) evs) (boot argv) []) as HS.
  { unfold Short. simpl. auto 10. }
  destruct (exec_Short_quiet a st evs sched (boot argv) [] Hout HS)
    as [Hl Hq]; [done | done |].
  pose proof (run_Short argv a st evs sched Hparse Hout) as (_ & _ & _ & H).
  simpl in Hl, Hq.
  destruct (pc (fst (exec sched (boot argv)))) eqn:Hpc; simpl in Hl;
    try done; try lia.
  destruct (Hq st0 eq_refl) as [-> Htr]. done.
Qed.

(** C7. With [--interpret] and a token that decodes, in every run: no child
    is spawned, no handler is installed, no listener is started, and the
    only thing the supervisor ever does is print the decoded descriptor; a
    run that ends, unless SIGTERM ended it, ends with status 0 after the
    print; and unless SIGTERM comes, the third step of the main thread
    (parse, decode and print, shut down) ends the run so, whatever else is
    scheduled. *)
Theorem interpret_only_prints argv a details sched :
  parse_args argv = inr a ->
  arg_interpret a = true ->
  interpret (detailsHexedPickle a) = inr details ->
  let s := fst (exec sched (boot argv)) in
  let tr := snd (exec sched (boot argv)) in
  subProcess s = NoChild /\ sigterm s = SIG_DFL /\ thread s = LIdle /\
  tr `prefix_of` [(Main, EvPprint details)] /\
  (forall st, pc s = MHalt st ->
     st = Exited 0 /\ tr = [(Main, EvPprint details)] \/
     st = Killed SIGTERM) /\
  (no_sigterm sched = true -> 3 <= main_steps sched ->
   pc s = MHalt (Exited 0) /\ tr = [(Main, EvPprint details)]).
Proof.
  intros Hparse Hi Hd s tr.
  assert (decode_outcome a = Some (Exited 0, [EvPprint details])) as Hout.
  { unfold decode_outcome. by rewrite Hd, Hi. }
  destruct (run_Short argv a _ _ sched Hparse Hout) as (Hth & Hsg & Hsp & H).
  fold s tr in Hth, Hsg, Hsp, H.
  split; [done|]. split; [done|]. split; [done|]. split; [|split].
  - destruct (pc s); try done; simpl in H.
    + destruct H as [_ ->]. apply prefix_nil.
    + destruct H as [_ ->]. apply prefix_nil.
    + by destruct H as [_ ->].
    + destruct H as [[_ ->] | [_ [-> | ->]]]; try done. apply prefix_nil.
  - intros st Hst. rewrite Hst in H.
    destruct H as [[-> ->] | [-> _]]; auto.
  - intros Hns Hm.
    by apply (run_Short_ends argv a _ _ sched Hparse Hout Hns Hm).
Qed.

(** C8, as the code has it.  A token that does not decode makes [interpret]
    raise the error of the step that failed: the TypeError of the hex codec,
    or whatever the unpickler raises.  Nothing catches it: in every run
    nothing has been done at all (no child, no handler, no listener, no
    event), a run that ends, unless SIGTERM ended it, ends with that
    exception uncaught, and unless SIGTERM comes the third step of the main
    thread ends the run so, whatever else is scheduled. *)
Theorem decode_failure_is_fatal argv a e sched :
  parse_args argv = inr a ->
  interpret (detailsHexedPickle a) = inl e ->
  let s := fst (exec sched (boot argv)) in
  let tr := snd (exec sched (boot argv)) in
  (forall e', decode_hex (detailsHexedPickle a) = inl e' ->
     e = e' /\ exc_class e = "TypeError") /\
  (forall pickled, decode_hex (detailsHexedPickle a) = inr pickled ->
     pickle_loads pickled = inl e) /\
  tr = [] /\
  subProcess s = NoChild /\ sigterm s = SIG_DFL /\ thread s = LIdle /\
  (forall st, pc s = MHalt st -> st = Uncaught e \/ st = Killed SIGTERM) /\
  (no_sigterm sched = true -> 3 <= main_steps sched ->
   pc s = MHalt (Uncaught e)).
Proof.
  intros Hparse He s tr.
  assert (decode_outcome a = Some (Uncaught e, [])) as Hout.
  { unfold decode_outcome. by rewrite He. }
  destruct (run_Short argv a _ _ sched Hparse Hout) as (Hth & Hsg & Hsp & H).
  fold s tr in Hth, Hsg, Hsp, H. simpl in H.
  refine (conj _ (conj _ (conj _ (conj _ (conj _ (conj _
            (conj _ _))))))); try exact Hth; try exact Hsg;
    try exact Hsp.
  - intros e' He'. unfold interpret in He. rewrite He' in He. simpl in He.
    inversion He; subst e'. split; [done|]. by eapply decode_hex_TypeError.
  - intros pickled Hp. unfold interpret in He. by rewrite Hp in He.
  - destruct (pc s); try done; simpl in H; try tauto;
      destruct H as [[_ ->] | [_ [-> | ->]]]; done.
  - intros st Hst. rewrite Hst in H.
    destruct H as [[-> _] | [-> _]]; auto.
  - intros Hns Hm.
    by destruct (run_Short_ends argv a _ _ sched Hparse Hout Hns Hm).
Qed.

(** * Further properties of the code *)

(** ** The token *)

Lemma hex_pairs_ok n : forall s,
  String.length s <= n ->
  Nat.even (String.length s) = true ->
  all_hex s = true ->
  exists r, hex_pairs s = inr r /\
            2 * String.length r = String.length s.
Proof.
  induction n as [|n IH]; intros s Hlen Hev Hhex.
  - destruct s; [by exists EmptyString | simpl in Hlen; lia].
  - destruct s as [|c1 [|c2 rest]]; [by exists EmptyString | done |].
    simpl in Hlen, Hev, Hhex. unfold is_hex in Hhex.
    destruct (hex_digit c1) as [h|] eqn:H1; [|done].
    destruct (hex_digit c2) as [l|] eqn:H2; [|done].
    destruct (IH rest) as (r & Hr & Hl); [lia | done | done |].
    exists (String (ascii_of_N (16 * h + l)) r).
    cbn [hex_pairs]. rewrite H1, H2, Hr. split; [done|]. simpl. lia.
Qed.

Lemma hex_pairs_bad n : forall s,
  String.length s <= n ->
  all_hex s = false ->
  exists e, hex_pairs s = inl e.
Proof.
  induction n as [|n IH]; intros s Hlen Hhex.
  - destruct s; [done | simpl in Hlen; lia].
  - destruct s as [|c1 [|c2 rest]]; [done | by eexists |].
    simpl in Hlen, Hhex. unfold is_hex in Hhex. cbn [hex_pairs].
    destruct (hex_digit c1) as [h|] eqn:H1; [|by eexists].
    destruct (hex_digit c2) as [l|] eqn:H2; [|by eexists].
    destruct (IH rest) as (e & He); [lia | done |].
    rewrite He. by eexists.
Qed.

(** X1. [interpret] hands the unpickler the bytes of the token, one for each
    pair of digits, exactly when the token is an even number of hexadecimal
    digits (of either case); on any other token it raises a TypeError
    without calling the unpickler. *)
Theorem interpret_wants_hex_pairs (tok : string) :
  if Nat.even (String.length tok) && all_hex tok
  then exists pickled,
         decode_hex tok = inr pickled /\
         2 * String.length pickled = String.length tok /\
         interpret tok = pickle_loads pickled
  else exists e,
         decode_hex tok = inl e /\ exc_class e = "TypeError" /\
         interpret tok = inl e.
Proof.
  unfold interpret, decode_hex. rewrite <- Nat.negb_even.
  destruct (Nat.even (String.length tok)) eqn:Hev; simpl.
  - destruct (all_hex tok) eqn:Hhex.
    + destruct (hex_pairs_ok (String.length tok) tok) as (r & Hr & Hl);
        [lia | done | done |].
      exists r. by rewrite Hr.
    + destruct (hex_pairs_bad (String.length tok) tok) as (e & He);
        [lia | done |].
      exists e. rewrite He. split; [done|]. split; [|done].
      by apply (hex_pairs_TypeError (String.length tok) tok).
  - by eexists.
Qed.

(** ** The subtree kill, as a function *)

Lemma descendant_trans tbl a b c :
  descendant tbl a b -> descendant tbl b c -> descendant tbl a c.
Proof.
  intros Hab Hbc. induction Hbc as [p Hp | p q Hp _ IH].
  - by eapply desc_step.
  - eapply desc_step; eauto.
Qed.




(** X3. The subtree kill is aimed below the supervisor only: when the
    supervisor is not its own descendant in the process table (no cycle of
    parents goes through it), [killAll] calls nothing on the supervisor
    itself nor on any of its ancestors, whatever [killer] is. *)
Theorem killAll_spares_supervisor args k tbl me p m :
  ~ descendant tbl me me ->
  p = me \/ descendant tbl p me ->
  ~ In (EvCall p m) (fst (killAll args k tbl me)).
Proof.
  intros Hme Hp Hin. destruct k as [m'|].
  - rewrite killAll_Some in Hin. simpl in Hin. unfold calls in Hin.
    apply in_map_iff in Hin as (q & [= -> _] & Hq).
    apply children_recursive_spec in Hq. destruct Hp as [-> | Hp]; [done|].
    apply Hme. by eapply descendant_trans.
  - unfold killAll in Hin. by destruct (children_recursive tbl me).
Qed.

(** X4. Before [main] has set it, the module's [killer] is [None]: a
    [killAll] then calls nothing at all, and it raises a TypeError exactly
    when the supervisor has a descendant (the loop body is what fails). *)
Theorem killAll_without_killer args tbl me :
  fst (killAll args None tbl me) = [] /\
  ((forall p, ~ descendant tbl me p) ->
   snd (killAll args None tbl me) = None) /\
  (forall p, descendant tbl me p ->
     exists e, snd (killAll args None tbl me) = Some e /\
               exc_class e = "TypeError").
Proof.
  unfold killAll.
  destruct (children_recursive tbl me) as [|q qs] eqn:Hc; simpl.
  - split; [done|]. split; [done|]. intros p Hp.
    apply children_recursive_spec in Hp. by rewrite Hc in Hp.
  - split; [done|]. split.
    + intros Hno. exfalso. apply (Hno q), children_recursive_spec.
      rewrite Hc. by left.
    + intros p _. by eexists.
Qed.

(** ** The main thread follows its plan *)

Lemma skeleton_app tr1 tr2 : skeleton (tr1 ++ tr2) = skeleton tr1 ++ skeleton tr2.
Proof. unfold skeleton. by rewrite events_of_app, List.filter_app. Qed.

Lemma skeleton_Listener (evs : list Event) :
  skeleton (List.map (pair Listener) evs) = [].
Proof.
  unfold skeleton, events_of. induction evs as [|e evs IH]; [done|]. exact IH.
Qed.

Lemma skeleton_calls m ps : skeleton (List.map (pair Main) (calls m ps)) = [].
Proof.
  unfold skeleton. rewrite events_of_same.
  induction ps as [|p ps IH]; [done|]. exact IH.
Qed.

Lemma in_Listener_Main (e : Event) (evs : list Event) :
  ~ In (Listener, e) (List.map (pair Main) evs).
Proof. rewrite in_tagged. by intros [? _]. Qed.

Lemma killAll_only_calls args k tbl me l o e :
  killAll args k tbl me = (l, o) -> In e l -> is_kill_call e = true.
Proof.
  unfold killAll. revert l o.
  induction (children_recursive tbl me) as [|p ps IH]; intros l o Hl He.
  - inversion Hl; subst. destruct He.
  - simpl in Hl. destruct k as [m|]; simpl in Hl.
    + destruct (killAll_loop (Some m) ps) as [l' o'] eqn:E.
      inversion Hl; subst. destruct He as [<- | He]; [done|].
      by eapply IH.
    + inversion Hl; subst. destruct He.
Qed.

Lemma skeleton_killAll args k tbl me l o t :
  killAll args k tbl me = (l, o) -> skeleton (List.map (pair t) l) = [].
Proof.
  intros Hl. destruct t; [|apply skeleton_Listener].
  unfold skeleton. rewrite events_of_same.
  assert (forall e, In e l -> is_kill_call e = true) as Hall
    by (intros e; by eapply killAll_only_calls).
  clear Hl. induction l as [|e l IH]; [done|].
  simpl. rewrite (Hall e) by (by left). simpl. apply IH.
  intros e' He'. apply Hall. by right.
Qed.

Lemma killAll_no_connect args k tbl me l o t peer :
  killAll args k tbl me = (l, o) ->
  ~ In (Listener, EvConnect peer) (List.map (pair t) l).
Proof.
  intros Hl Hin. apply in_tagged in Hin as [_ Hin].
  by pose proof (killAll_only_calls _ _ _ _ _ _ _ Hl Hin).
Qed.

Lemma skeleton_Main_one e :
  skeleton [(Main, e)] = if is_kill_call e then [] else [e].
Proof. unfold skeleton. simpl. by destruct (is_kill_call e). Qed.

Ltac plan_known :=
  repeat match goal with
  | H : plan _ = _ |- _ => rewrite H in *; clear H
  end;
  unfold plan, plan_decode, plan_popen, plan_branch in *;
  repeat match goal with
  | H : ?x = _ |- context [match ?x with _ => _ end] => rewrite H
  | H : ?x = _, H' : context [match ?x with _ => _ end] |- _ =>
      rewrite H in H'
  end.

Ltac skel :=
  rewrite ?app_nil_r, ?skeleton_app;
  repeat match goal with
  | H : killAll _ _ _ _ = _ |- _ =>
      rewrite ?(skeleton_killAll _ _ _ _ _ _ Main H),
              ?(skeleton_killAll _ _ _ _ _ _ Listener H)
  end;
  rewrite ?app_nil_r.

Ltac no_connect :=
  repeat match goal with
  | H : In (_, _) (List.map (pair _) _) |- _ => apply in_tagged in H as [? H]
  | H : killAll _ _ _ _ = (?l, _), H' : In (EvConnect _) ?l |- _ =>
      pose proof (killAll_only_calls _ _ _ _ _ _ _ H H'); clear H'
  end.

Ltac peer_part Hpeer :=
  let peer0 := fresh "peer0" in
  let Hp := fresh "Hp" in
  intros peer0 Hp; rewrite ?in_app_iff in Hp; simpl in Hp;
  destruct_or?; no_connect; simplify_eq;
  first [ done
        | apply Hpeer; by auto
        | plan_known; simpl; congruence ].

Lemma step_Follows argv s tr i :
  Follows argv s tr ->
  Follows argv (fst (step s i)) (tr ++ snd (step s i)).
Proof.
  intros H. unfold Follows in H.
  destruct H as (Hk & Hpeer & H).
  step_split s i; simpl in *; unfold Follows; simpl; skel.
  all: try (split; [done|]; split; [exact Hpeer|]; exact H).
  all: repeat match type of H with ex _ => destruct H as [? H] end;
    destruct_and?; simplify_eq.
  all: split; [first [exact Hk | by eauto | intros ?; by eauto] |].
  all: split; [peer_part Hpeer |].
  all: try (destruct (Hk eq_refl) as [m ->]; kill_known).
  all: try by (plan_known; simpl; skel; eauto 10 using prefix_nil).
  all: destruct_or?; destruct_and?;
    repeat match goal with H : ex _ |- _ => destruct H as [? H] end;
    destruct_and?; simplify_eq.
  all: rewrite ?skeleton_Main_one; simpl;
    repeat match goal with H : skeleton _ = _ |- _ => rewrite H end;
    rewrite ?app_nil_r.
  all: try by (plan_known; simpl in *; eauto 10 using prefix_nil).
  - right; right; split; [done|]. rewrite H0. unfold plan_branch.
    repeat case_match; by eexists.
  - split; [done|]. split; [|done]. exists false. simpl. by rewrite app_nil_r.
  - split; [done|]. split; [|done]. exists false. simpl. by rewrite app_nil_r.
  - split; [done|]. split; [|done]. by exists true.
  - right. split; [done|]. split; [done|]. eexists _, _. split; [done|].
    by rewrite <- app_assoc.
Qed.


Lemma run_Follows argv sched :
  Follows argv (fst (exec sched (boot argv))) (snd (exec sched (boot argv))).
Proof.
  apply (exec_invariant (Follows argv)) with (tr := []).
  - intros s tr i. apply step_Follows.
  - unfold Follows. simpl. split; [done|]. split; [|done].
    by intros peer [? | []].
Qed.

(** ** The order in which things are set up *)

Lemma seen_app t f tr1 tr2 :
  seen t f (tr1 ++ tr2) = seen t f tr1 || seen t f tr2.
Proof. unfold seen. by rewrite events_of_app, existsb_app. Qed.

Lemma in_events_of t e tr : In e (events_of t tr) <-> In (t, e) tr.
Proof.
  unfold events_of. rewrite in_map_iff. split.
  - intros [[t' e'] [<- Hin]]. apply filter_In in Hin as [Hin Ht].
    simpl in *. by destruct t', t.
  - intros Hin. exists (t, e). split; [done|]. apply filter_In.
    split; [done|]. by destruct t.
Qed.

Lemma seen_In t f tr :
  seen t f tr = true <-> exists e, In (t, e) tr /\ f e = true.
Proof.
  unfold seen. rewrite existsb_exists.
  by setoid_rewrite in_events_of.
Qed.

Lemma seen_killAll t f args k tbl me l o t' :
  (forall p m, f (EvCall p m) = false) ->
  killAll args k tbl me = (l, o) -> seen t f (List.map (pair t') l) = false.
Proof.
  intros Hf Hl. apply not_true_is_false. rewrite seen_In.
  intros (e & Hin & He). apply in_tagged in Hin as [_ Hin].
  pose proof (killAll_only_calls _ _ _ _ _ _ _ Hl Hin) as Hc.
  destruct e; try discriminate Hc. by rewrite Hf in He.
Qed.

Ltac seen_known :=
  rewrite ?seen_app, ?events_of_app, ?events_of_Listener_Main,
    ?app_nil_r; simpl;
  repeat match goal with
  | H : killAll _ _ _ _ = _ |- _ =>
      rewrite
        ?(seen_killAll Main is_handler _ _ _ _ _ _ _ (fun _ _ => eq_refl) H),
        ?(seen_killAll Main is_start _ _ _ _ _ _ _ (fun _ _ => eq_refl) H),
        ?(seen_killAll Main is_popen _ _ _ _ _ _ _ (fun _ _ => eq_refl) H)
  end;
  rewrite ?orb_false_r, ?orb_true_r.

Lemma step_Guarded s tr i :
  Guarded s tr -> Guarded (fst (step s i)) (tr ++ snd (step s i)).
Proof.
  intros H.
  step_split s i; rewrite ?app_nil_r; try exact H.
  all: unfold Guarded in *; simpl in *; seen_known.
  all: destruct H as (H1 & H2 & H3 & H4 & H5 & H6 & H6' & H7 & H8 & H9).
  all: try match goal with
       | H : connected ?th = true |- _ => destruct th; try discriminate H
       end.
  all: try match goal with
       | H : ?sg = Handler_killAll |- _ => subst sg
       end.
  all: by intuition (try discriminate; try congruence; eauto).
Qed.

Lemma run_Guarded argv sched :
  Guarded (fst (exec sched (boot argv))) (snd (exec sched (boot argv))).
Proof.
  apply (exec_invariant Guarded) with (tr := []).
  - apply step_Guarded.
  - unfold Guarded. simpl. by intuition.
Qed.

Lemma step_kills s tr i t :
  Guarded s tr ->
  seen t is_kill_call (snd (step s i)) = true ->
  installed (sigterm s) = true.
Proof.
  intros (H1 & H2 & H3 & H4 & H5 & H6 & H6' & H7 & H8 & H9).
  step_split s i; simpl in *; try done; try (by destruct t); intros _;
    by auto.
Qed.

Lemma step_KillsLate s tr i :
  Guarded s tr -> KillsLate tr -> KillsLate (tr ++ snd (step s i)).
Proof.
  intros HG HK tr1 t p m tr2 Heq.
  assert (seen t is_kill_call (snd (step s i)) = true ->
          seen Main is_popen tr = true /\ seen Main is_handler tr = true)
    as Hnow.
  { intros Hc. pose proof (step_kills s tr i t HG Hc) as Hi.
    destruct HG as (H1 & H2 & H3 & H4 & H5 & H6 & H6' & H7 & H8 & H9).
    rewrite H1, H3. auto. }
  apply app_eq_app in Heq as [l [[-> Heq] | [-> Heq]]].
  - destruct l as [|c l].
    + simpl in Heq. rewrite app_nil_r in *. apply Hnow.
      rewrite <- Heq. apply seen_In. exists (EvCall p m). split; [|done].
      by left.
    + inversion Heq; subst. by eapply HK.
  - rewrite !seen_app. destruct Hnow as [-> ->]; [|done].
    rewrite Heq. apply seen_In. exists (EvCall p m). split; [|done].
    apply in_or_app. right. by left.
Qed.

Lemma run_KillsLate argv sched : KillsLate (snd (exec sched (boot argv))).
Proof.
  apply (exec_invariant (fun s tr => Guarded s tr /\ KillsLate tr))
    with (tr := []) (s := boot argv) (sched := sched).
  - intros s tr i [HG HK]. split; [by apply step_Guarded|].
    by apply step_KillsLate.
  - split; [apply (run_Guarded argv [])|].
    intros tr1 t p m tr2 Heq. by destruct tr1.
Qed.

(** ** What the invariants say about a run *)

Lemma skeleton_In e tr :
  In e (skeleton tr) <-> In (Main, e) tr /\ is_kill_call e = false.
Proof.
  unfold skeleton, events_of.
  rewrite filter_In, in_map_iff, negb_true_iff. split.
  - intros [[[t e'] [<- Hin]] He]. apply filter_In in Hin as [Hin Ht].
    simpl in *. by destruct t.
  - intros [Hin He]. split; [|done]. exists (Main, e). split; [done|].
    by apply filter_In.
Qed.

Lemma Follows_order argv s tr :
  Follows argv s tr ->
  skeleton tr `prefix_of` plan_events (plan argv) \/
  plan_abort (plan argv) = None /\
  exists j c,
    skeleton tr `prefix_of`
      plan_events (plan argv) ++ opt j EvJoin ++ [EvExit c].
Proof.
  intros (_ & _ & H).
  destruct (pc s); simpl in H;
    repeat match type of H with ex _ => destruct H as [? H] end;
    destruct_or?; destruct_and?;
    repeat match goal with H : ex _ |- _ => destruct H as [? H] end;
    destruct_and?; subst;
    repeat match goal with H : skeleton _ = _ |- _ => rewrite H end;
    try (left; apply prefix_nil);
    try by left;
    try by (right; split; [done|]; eexists _, 0%Z; rewrite app_assoc;
            apply prefix_app_r);
    try by (right; split; [done|]; by eexists _, _).
  - left. match goal with H : plan _ = _ |- _ => rewrite H end.
    unfold plan_branch. repeat case_match; by eexists.
  - left. match goal with H : plan _ = _ |- _ => rewrite H end.
    unfold plan_branch. repeat case_match; by eexists.
  - right. split; [done|]. exists x, 0%Z. rewrite app_assoc.
    by apply prefix_app_r.
  - right. split; [done|]. by exists x0, x.
  - right. split; [done|]. by exists x0, x.
Qed.

Lemma plan_shape argv :
  (exists d, plan_events (plan argv) `prefix_of` [EvPprint d] /\
             plan_abort (plan argv) <> None) \/
  (exists x y ts,
     plan_events (plan argv) `prefix_of`
       [EvPopen x y; EvSignalHandler] ++ opt ts EvThreadStart /\
     (plan_abort (plan argv) = None ->
      plan_events (plan argv) =
        [EvPopen x y; EvSignalHandler] ++ opt ts EvThreadStart)).
Proof.
  unfold plan, plan_decode, plan_popen, plan_branch.
  repeat case_match; simpl;
    try (left; exists PyNone; split; [apply prefix_nil | done]);
    try (left; by eexists);
    right; eexists _, _;
    first [by exists false | by exists true].
Qed.

Lemma spawn_inr details x y pid :
  spawn details = inr (x, y, pid) ->
  exists popenDetails,
    getitem details "popenDetails" = inr popenDetails /\
    getitem popenDetails "args" = inr x /\
    getitem popenDetails "kwargs" = inr y /\
    Popen x y = inr pid.
Proof.
  unfold spawn, bind, ret. intros H.
  destruct (getitem details "popenDetails") as [|pd]; [done|].
  destruct (getitem pd "args") as [|x'] eqn:Hx; [done|].
  destruct (getitem pd "kwargs") as [|y'] eqn:Hy; [done|].
  destruct (Popen x' y') as [|pid'] eqn:Hp; [done|].
  inversion H; subst. by exists pd.
Qed.

Lemma plan_events_popen argv x y :
  In (EvPopen x y) (plan_events (plan argv)) ->
  exists a details pid,
    parse_args argv = inr a /\ arg_interpret a = false /\
    interpret (detailsHexedPickle a) = inr details /\
    spawn details = inr (x, y, pid).
Proof.
  unfold plan, plan_decode, plan_popen, plan_branch.
  repeat case_match; simpl; intros Hin; destruct_or?; simplify_eq;
    try done; by eexists _, _, _.
Qed.

Lemma plan_peer_Some argv peer :
  plan_peer (plan argv) = Some peer ->
  exists a details,
    parse_args argv = inr a /\ arg_interpret a = false /\
    quitWhenTold a = true /\
    interpret (detailsHexedPickle a) = inr details /\
    getitem details "peer" = inr peer.
Proof.
  unfold plan, plan_decode, plan_popen, plan_branch.
  repeat case_match; simpl; intros Hin; simplify_eq; by eexists _, _.
Qed.

(** X5. In every run, whatever the command line and the schedule, the main
    thread does what [main] says in the order of its lines (the calls of
    the SIGTERM handler, which can come in between, left aside): either it
    prints the descriptor at most once and does nothing else, or it launches
    one child, then installs the handler, then starts the listener (if it
    does), then joins it (if it does), then calls [sys.exit], and stops
    anywhere on that way. *)
Theorem main_thread_order argv sched :
  let tr := snd (exec sched (boot argv)) in
  (exists d, skeleton tr `prefix_of` [EvPprint d]) \/
  (exists x y ts j c,
     skeleton tr `prefix_of`
       [EvPopen x y; EvSignalHandler] ++ opt ts EvThreadStart ++
       opt j EvJoin ++ [EvExit c]).
Proof.
  intros tr.
  destruct (Follows_order argv _ _ (run_Follows argv sched))
    as [Hpre | (Hnone & j & c & Hpre)]; fold tr in Hpre.
  - destruct (plan_shape argv) as [(d & Hd & _) | (x & y & ts & Hs & _)].
    + left. exists d. by etrans.
    + right. exists x, y, ts, false, 0%Z. etrans; [exact Hpre|].
      etrans; [exact Hs|]. rewrite (app_assoc _ (opt ts _)).
      apply prefix_app_r. done.
  - destruct (plan_shape argv) as [(d & _ & Hd) | (x & y & ts & _ & Hs)];
      [done|].
    right. exists x, y, ts, j, c. rewrite (Hs Hnone) in Hpre.
    by rewrite <- app_assoc in Hpre.
Qed.

(** X6. In every run the child is launched with the arguments the
    descriptor gives, and the listener connects to the peer the descriptor
    gives: a launch with [args] and [kwargs] means that the command line
    parsed without [--interpret], that its token decoded to a descriptor
    whose [popenDetails] hold these [args] and [kwargs], and that [Popen]
    returned; a connection to [peer] means that [--quit-when-told] was
    given and that [peer] is the descriptor's. *)
Theorem launch_and_connect_as_described argv sched :
  let tr := snd (exec sched (boot argv)) in
  (forall x y, In (Main, EvPopen x y) tr ->
     exists a details popenDetails pid,
       parse_args argv = inr a /\ arg_interpret a = false /\
       interpret (detailsHexedPickle a) = inr details /\
       getitem details "popenDetails" = inr popenDetails /\
       getitem popenDetails "args" = inr x /\
       getitem popenDetails "kwargs" = inr y /\
       Popen x y = inr pid) /\
  (forall peer, In (Listener, EvConnect peer) tr ->
     exists a details,
       parse_args argv = inr a /\ arg_interpret a = false /\
       quitWhenTold a = true /\
       interpret (detailsHexedPickle a) = inr details /\
       getitem details "peer" = inr peer).
Proof.
  intros tr. pose proof (run_Follows argv sched) as HF. fold tr in HF.
  split.
  - intros x y Hin.
    assert (In (EvPopen x y) (skeleton tr)) as Hsk
      by (by apply skeleton_In).
    assert (In (EvPopen x y) (plan_events (plan argv))) as Hpl.
    { destruct (Follows_order argv _ _ HF)
        as [Hpre | (_ & j & c & Hpre)].
      - destruct Hpre as [k ->]. apply in_or_app. by left.
      - destruct Hpre as [k Hk].
        assert (In (EvPopen x y)
                  (plan_events (plan argv) ++ opt j EvJoin ++ [EvExit c]))
          as Hin' by (rewrite Hk; apply in_or_app; by left).
        apply in_app_or in Hin' as [Hin' | Hin']; [done|].
        apply in_app_or in Hin' as [Hin' | Hin'].
        + by destruct j; simpl in Hin'; destruct_or?.
        + by simpl in Hin'; destruct_or?. }
    destruct (plan_events_popen argv x y Hpl)
      as (a & details & pid & Hp & Hi & Hd & Hs).
    destruct (spawn_inr details x y pid Hs) as (pd & H1 & H2 & H3 & H4).
    by exists a, details, pd, pid.
  - intros peer Hin. destruct HF as (_ & Hpeer & _).
    apply plan_peer_Some. apply Hpeer. by right.
Qed.

(** ** Runs that end before [wait] *)

Lemma plan_abort_not_killed argv c :
  plan_abort (plan argv) <> Some (Killed c).
Proof.
  unfold plan, plan_decode, plan_popen, plan_branch.
  repeat case_match; simpl; congruence.
Qed.

Lemma step_plan_left argv st s tr i :
  Follows argv s tr -> Guarded s tr ->
  plan_abort (plan argv) = Some st ->
  i <> Sigterm ->
  pc s <> MHalt (Killed SIGTERM) ->
  plan_left (plan_steps (plan argv)) (pc (fst (step s i))) <=
    plan_left (plan_steps (plan argv)) (pc s) -
    match i with RunMain => 1 | _ => 0 end /\
  pc (fst (step s i)) <> MHalt (Killed SIGTERM).
Proof.
  intros (_ & _ & HF) (_ & _ & _ & _ & Hd & _) Ha Hi Hk.
  step_split s i; simpl in *; try done; try (split; [lia | done]).
  all: repeat match type of HF with ex _ => destruct HF as [? HF] end;
    destruct_or?; destruct_and?; simplify_eq.
  all: try (split; [|done]).
  all: try by (plan_known; simpl in *; simplify_eq; lia).
  - rewrite H in *. unfold plan_popen, plan_branch in *. rewrite Heqr in *.
    repeat case_match; simpl in *; simplify_eq; lia.
  - destruct th, d; try discriminate Heqb; by specialize (Hd eq_refl).
  - split; [lia|]. intros [= ->]. by apply plan_abort_not_killed in H.
Qed.

Lemma exec_plan_left argv st sched : forall s tr,
  Follows argv s tr -> Guarded s tr ->
  plan_abort (plan argv) = Some st ->
  no_sigterm sched = true ->
  pc s <> MHalt (Killed SIGTERM) ->
  plan_left (plan_steps (plan argv)) (pc (fst (exec sched s))) <=
    plan_left (plan_steps (plan argv)) (pc s) - main_steps sched /\
  pc (fst (exec sched s)) <> MHalt (Killed SIGTERM).
Proof.
  induction sched as [|i sched IH]; intros s tr HF HG Ha Hns Hk.
  - unfold main_steps. simpl. split; [lia | done].
  - simpl in Hns. apply andb_true_iff in Hns as [Hi Hns].
    assert (i <> Sigterm) as Hi' by (intros ->; discriminate Hi).
    pose proof (step_Follows argv s tr i HF) as HF1.
    pose proof (step_Guarded s tr i HG) as HG1.
    destruct (step_plan_left argv st s tr i HF HG Ha Hi' Hk) as [Hl1 Hk1].
    simpl. destruct (step s i) as [s1 evs1]. simpl in *.
    destruct (IH s1 _ HF1 HG1 Ha Hns Hk1) as [Hl2 Hk2].
    destruct (exec sched s1) as [s2 evs2]. simpl in *.
    split; [|done]. unfold main_steps in *. destruct i; simpl; lia.
Qed.

Lemma plan_left_0 argv st s tr :
  Follows argv s tr ->
  plan_abort (plan argv) = Some st ->
  pc s <> MHalt (Killed SIGTERM) ->
  plan_left (plan_steps (plan argv)) (pc s) = 0 ->
  pc s = MHalt st /\ skeleton tr = plan_events (plan argv).
Proof.
  intros (_ & _ & HF) Ha Hk H0.
  destruct (pc s); simpl in *;
    repeat match type of HF with ex _ => destruct HF as [? HF] end;
    destruct_or?; destruct_and?; simplify_eq; try done;
    plan_known; repeat case_match; simpl in *; simplify_eq; lia.
Qed.

Lemma run_aborts argv st sched :
  plan_abort (plan argv) = Some st ->
  no_sigterm sched = true ->
  plan_steps (plan argv) <= main_steps sched ->
  pc (fst (exec sched (boot argv))) = MHalt st /\
  skeleton (snd (exec sched (boot argv))) = plan_events (plan argv).
Proof.
  intros Ha Hns Hm.
  destruct (exec_plan_left argv st sched (boot argv) []
              (run_Follows argv []) (run_Guarded argv []) Ha Hns)
    as [Hl Hk]; [done|].
  apply (plan_left_0 argv st _ _ (run_Follows argv sched) Ha Hk).
  simpl in Hl. lia.
Qed.


Lemma seen_skeleton f tr :
  (forall p m, f (EvCall p m) = false) ->
  seen Main f tr = existsb f (skeleton tr).
Proof.
  intros Hf. unfold seen, skeleton.
  induction (events_of Main tr) as [|e l IH]; [done|].
  simpl. destruct e; simpl; rewrite ?Hf, ?IH; done.
Qed.

Lemma existsb_prefix (f : Event -> bool) l1 l2 :
  l1 `prefix_of` l2 -> existsb f l2 = false -> existsb f l1 = false.
Proof.
  intros [k ->]. rewrite existsb_app. by intros [? _]%orb_false_iff.
Qed.

Lemma events_of_Main_nil tr :
  skeleton tr = [] -> seen Main is_kill_call tr = false ->
  events_of Main tr = [].
Proof.
  unfold skeleton, seen.
  induction (events_of Main tr) as [|e l IH]; [done|].
  simpl. by destruct (is_kill_call e).
Qed.

Lemma trace_nil tr :
  events_of Main tr = [] -> events_of Listener tr = [] -> tr = [].
Proof.
  unfold events_of. destruct tr as [|[[] e] tr]; simpl; done.
Qed.

Lemma Follows_halted argv s tr st st' :
  Follows argv s tr -> plan_abort (plan argv) = Some st ->
  pc s = MHalt st' -> st' = st \/ st' = Killed SIGTERM.
Proof.
  intros (_ & _ & HF) Ha Hpc. rewrite Hpc in HF.
  destruct HF as [[H _] | [[H _] | [-> _]]]; [left | | by right];
    congruence.
Qed.

Lemma Follows_before_wait argv s tr st :
  Follows argv s tr -> plan_abort (plan argv) = Some st ->
  waits_or_later (pc s) = false.
Proof.
  intros (_ & _ & HF) Ha. destruct (pc s); try done; simpl in HF;
    destruct_and?; congruence.
Qed.

Lemma Follows_aborting argv s tr st :
  Follows argv s tr -> plan_abort (plan argv) = Some st ->
  skeleton tr `prefix_of` plan_events (plan argv).
Proof.
  intros HF Ha. destruct (Follows_order argv s tr HF) as [H | [H _]];
    [done | congruence].
Qed.

(** A run on a plan that ends before anything is launched. *)
Lemma run_nothing argv st sched :
  plan_abort (plan argv) = Some st ->
  plan_events (plan argv) = [] ->
  let s := fst (exec sched (boot argv)) in
  let tr := snd (exec sched (boot argv)) in
  tr = [] /\
  subProcess s = NoChild /\ sigterm s = SIG_DFL /\ thread s = LIdle /\
  (forall st', pc s = MHalt st' -> st' = st \/ st' = Killed SIGTERM) /\
  (no_sigterm sched = true -> plan_steps (plan argv) <= main_steps sched ->
   pc s = MHalt st).
Proof.
  intros Ha He s tr.
  pose proof (run_Follows argv sched) as HF. fold s tr in HF.
  pose proof (run_Guarded argv sched) as HG. fold s tr in HG.
  pose proof (Follows_aborting argv s tr st HF Ha) as Hsk.
  rewrite He in Hsk. apply prefix_nil_inv in Hsk.
  destruct HG as (H1 & H2 & H3 & H4 & _ & H6 & _).
  rewrite seen_skeleton, Hsk in H1, H2, H3 by done. simpl in *.
  destruct (H4 (eq_sym H2)) as (Hl & _).
  assert (sigterm s = SIG_DFL) as Hsg by (by destruct (sigterm s)).
  refine (conj _ (conj _ (conj _ (conj _ (conj _ _))))).
  - apply trace_nil; [|done]. apply events_of_Main_nil; [done|].
    destruct (seen Main is_kill_call tr); [|done].
    specialize (H6 eq_refl). congruence.
  - by destruct (subProcess s).
  - done.
  - by destruct (thread s).
  - intros st'. by apply (Follows_halted argv s tr).
  - intros Hns Hm. by apply (run_aborts argv st sched Ha Hns Hm).
Qed.


(** X8. A launch that fails is fatal and leaves nothing behind.  When the
    descriptor has no [popenDetails], or these lack [args] or [kwargs], or
    [Popen] raises, the exception is not caught: in every run no child is
    there, no handler is installed, no listener is started and nothing is
    done at all; a run that ends, unless SIGTERM ended it, ends with that
    exception uncaught, and unless SIGTERM comes the fourth step of the
    main thread ends the run so, whatever else is scheduled. *)
Theorem launch_failure_is_fatal argv a details e sched :
  parse_args argv = inr a ->
  arg_interpret a = false ->
  interpret (detailsHexedPickle a) = inr details ->
  spawn details = inl e ->
  let s := fst (exec sched (boot argv)) in
  let tr := snd (exec sched (boot argv)) in
  (getitem details "popenDetails" = inl e \/
   exists popenDetails,
     getitem details "popenDetails" = inr popenDetails /\
     (getitem popenDetails "args" = inl e \/
      exists args,
        getitem popenDetails "args" = inr args /\
        (getitem popenDetails "kwargs" = inl e \/
         exists kwargs,
           getitem popenDetails "kwargs" = inr kwargs /\
           Popen args kwargs = inl e))) /\
  tr = [] /\
  subProcess s = NoChild /\ sigterm s = SIG_DFL /\ thread s = LIdle /\
  (forall st, pc s = MHalt st -> st = Uncaught e \/ st = Killed SIGTERM) /\
  (no_sigterm sched = true -> 4 <= main_steps sched ->
   pc s = MHalt (Uncaught e)).
Proof.
  intros Hparse Hi Hd Hs.
  assert (plan argv =
          {| plan_events := []; plan_peer := None;
             plan_abort := Some (Uncaught e); plan_steps := 4 |}) as Hp
    by (unfold plan, plan_decode, plan_popen; by rewrite Hparse, Hd, Hi, Hs).
  pose proof (run_nothing argv (Uncaught e) sched) as H.
  rewrite Hp in H. split; [|by apply H].
  clear H Hp. unfold spawn, bind, ret in Hs.
  destruct (getitem details "popenDetails") as [|pd]; [left; congruence|].
  right. exists pd. split; [done|].
  destruct (getitem pd "args") as [|x]; [left; congruence|].
  right. exists x. split; [done|].
  destruct (getitem pd "kwargs") as [|y]; [left; congruence|].
  right. exists y. split; [done|].
  destruct (Popen x y); [congruence | done].
Qed.

(** X9. With [--quit-when-told] and a descriptor without [peer], the child
    is launched and the handler installed before the lookup of the peer
    raises: in every run the main thread does nothing else, never gets to
    [wait], and no listener is started; a run that ends, unless SIGTERM
    ended it, ends with that exception uncaught, and unless SIGTERM comes
    the sixth step of the main thread ends the run so, with the child
    launched and the handler installed, whatever else is scheduled. *)
Theorem missing_peer_is_fatal_after_launch argv a details x y pid e sched :
  parse_args argv = inr a ->
  arg_interpret a = false ->
  quitWhenTold a = true ->
  interpret (detailsHexedPickle a) = inr details ->
  spawn details = inr (x, y, pid) ->
  getitem details "peer" = inl e ->
  let s := fst (exec sched (boot argv)) in
  let tr := snd (exec sched (boot argv)) in
  skeleton tr `prefix_of` [EvPopen x y; EvSignalHandler] /\
  thread s = LIdle /\ events_of Listener tr = [] /\
  waits_or_later (pc s) = false /\
  (forall st, pc s = MHalt st -> st = Uncaught e \/ st = Killed SIGTERM) /\
  (no_sigterm sched = true -> 6 <= main_steps sched ->
   pc s = MHalt (Uncaught e) /\
   skeleton tr = [EvPopen x y; EvSignalHandler]).
Proof.
  intros Hparse Hi Hq Hd Hs He s tr.
  assert (plan argv =
          {| plan_events := [EvPopen x y; EvSignalHandler];
             plan_peer := None;
             plan_abort := Some (Uncaught e); plan_steps := 6 |}) as Hp.
  { unfold plan, plan_decode, plan_popen, plan_branch.
    by rewrite Hparse, Hd, Hi, Hs, Hq, He. }
  assert (plan_abort (plan argv) = Some (Uncaught e)) as Ha
    by (by rewrite Hp).
  pose proof (run_Follows argv sched) as HF. fold s tr in HF.
  pose proof (run_Guarded argv sched) as HG. fold s tr in HG.
  pose proof (Follows_aborting argv s tr _ HF Ha) as Hsk.
  rewrite Hp in Hsk. simpl in Hsk.
  destruct HG as (_ & H2 & _ & H4 & _).
  rewrite seen_skeleton in H2 by done.
  rewrite (existsb_prefix is_start _ _ Hsk eq_refl) in H2.
  destruct (H4 (eq_sym H2)) as (Hl & _).
  refine (conj _ (conj _ (conj _ (conj _ (conj _ _))))); try done.
  - by destruct (thread s).
  - by apply (Follows_before_wait argv s tr (Uncaught e)).
  - intros st. by apply (Follows_halted argv s tr).
  - intros Hns Hm.
    destruct (run_aborts argv (Uncaught e) sched Ha Hns) as [Hpc Hsk'].
    + by rewrite Hp.
    + fold s in Hpc. fold tr in Hsk'. by rewrite Hp in Hsk'.
Qed.

(** ** Kills, signals and the handler *)

(** X10. Nothing is killed before the child has been launched and the
    handler installed: in every run, each call of a kill method, by the
    listener or by the handler, comes after the launch and after the
    installation. *)
Theorem kills_only_after_setup argv sched tr1 t p m tr2 :
  snd (exec sched (boot argv)) = tr1 ++ (t, EvCall p m) :: tr2 ->
  (exists x y, In (Main, EvPopen x y) tr1) /\
  In (Main, EvSignalHandler) tr1.
Proof.
  intros Heq.
  destruct (run_KillsLate argv sched tr1 t p m tr2 Heq) as [Hp Hh].
  apply seen_In in Hp as (e & Hin & He).
  apply seen_In in Hh as (e' & Hin' & He').
  destruct e; try discriminate He. destruct e'; try discriminate He'.
  split; [|done]. by eexists _, _.
Qed.

Lemma exec_halted sched : forall s,
  is_halted (pc s) = true -> exec sched s = (s, []).
Proof.
  induction sched as [|i sched IH]; intros s Hs; [done|].
  simpl. unfold step. destruct (pc s) eqn:Hpc; try discriminate Hs.
  rewrite IH; [done|]. by rewrite Hpc.
Qed.

Lemma run_no_calls argv sched :
  seen Main is_handler (snd (exec sched (boot argv))) = false ->
  forall t p m, ~ In (t, EvCall p m) (snd (exec sched (boot argv))).
Proof.
  intros Hh t p m Hin. apply in_split in Hin as (tr1 & tr2 & Heq).
  destruct (run_KillsLate argv sched tr1 t p m tr2 Heq) as [_ Hh'].
  rewrite Heq, seen_app, Hh' in Hh. done.
Qed.

(** X11. Until the handler is installed, SIGTERM has its default effect: it
    ends the supervisor at once and kills nobody.  In a run in which the
    main thread has not installed the handler yet, a SIGTERM ends the
    process with the status of the signal, nothing more happens whatever is
    scheduled after it, no kill method has been called on any process, and
    a child that was launched already is left as it is. *)
Theorem early_sigterm_kills_only_supervisor argv sched sched' :
  let s := fst (exec sched (boot argv)) in
  let tr := snd (exec sched (boot argv)) in
  ~ In (Main, EvSignalHandler) tr ->
  is_halted (pc s) = false ->
  exec (sched ++ Sigterm :: sched') (boot argv) =
    (set_pc s (MHalt (Killed SIGTERM)), tr) /\
  (forall t p m, ~ In (t, EvCall p m) tr).
Proof.
  intros s tr Hno Hpc.
  assert (seen Main is_handler tr = false) as Hh.
  { apply not_true_is_false. rewrite seen_In. intros (e & Hin & He).
    by destruct e. }
  split; [|by apply run_no_calls].
  pose proof (run_Guarded argv sched) as (H1 & _). fold s tr in H1.
  rewrite Hh in H1.
  rewrite exec_app. fold s tr.
  destruct (exec sched (boot argv)) as [s0 tr0] eqn:Hrun.
  simpl in s, tr. subst s tr.
  assert (step s0 Sigterm = (set_pc s0 (MHalt (Killed SIGTERM)), [])) as Hst.
  { unfold step, by_thread, deliver_sigterm.
    destruct (pc s0); try discriminate Hpc;
      by destruct (sigterm s0). }
  simpl. rewrite Hst, exec_halted by done. by rewrite !app_nil_r.
Qed.


Lemma plan_no_start argv a :
  parse_args argv = inr a -> quitWhenTold a = false ->
  existsb is_start (plan_events (plan argv)) = false.
Proof.
  intros Hp Hq. unfold plan, plan_decode, plan_popen, plan_branch.
  rewrite Hp, Hq. by repeat case_match.
Qed.

(** X13. Without [--quit-when-told] there is no listener: in every run no
    thread is started and none is joined, the flag [killedByUser] is never
    set, datagrams are not even queued, and the only calls of a kill method
    are those of the SIGTERM handler. *)
Theorem without_quit_when_told_no_listener argv a sched :
  parse_args argv = inr a ->
  quitWhenTold a = false ->
  let s := fst (exec sched (boot argv)) in
  let tr := snd (exec sched (boot argv)) in
  thread s = LIdle /\ killedByUser s = false /\ inbox s = [] /\
  events_of Listener tr = [] /\
  ~ In (Main, EvThreadStart) tr /\ ~ In (Main, EvJoin) tr /\
  (forall t p m, In (t, EvCall p m) tr -> t = Main).
Proof.
  intros Hparse Hq s tr.
  pose proof (run_Follows argv sched) as HF. fold s tr in HF.
  pose proof (run_Guarded argv sched) as HG. fold s tr in HG.
  pose proof (plan_no_start argv a Hparse Hq) as Hns.
  assert (existsb is_start (skeleton tr) = false) as Hsk.
  { destruct (Follows_order argv s tr HF) as [H | (_ & j & c & H)].
    - by apply (existsb_prefix is_start _ _ H).
    - apply (existsb_prefix is_start _ _ H).
      rewrite !existsb_app, Hns. by destruct j. }
  destruct HG as (_ & H2 & _ & H4 & _).
  rewrite seen_skeleton, Hsk in H2 by done.
  destruct (H4 (eq_sym H2)) as (Hl & Hk & Hi).
  assert (thread s = LIdle) as Hth by (by destruct (thread s)).
  refine (conj _ (conj _ (conj _ (conj _ (conj _ (conj _ _)))))); try done.
  - intros Hin. rewrite <- not_true_iff_false in Hsk. apply Hsk.
    apply existsb_exists. exists EvThreadStart. split; [|done].
    by apply skeleton_In.
  - intros Hin.
    destruct (run_Hist argv a sched Hparse) as (_ & _ & _ & HJ & _).
    fold s tr in HJ. destruct (HJ Hin) as [Hd _]. congruence.
  - intros t p m Hin. destruct t; [done|].
    apply in_events_of in Hin. by rewrite Hl in Hin.
Qed.

(** ** The datagram *)

Lemma seen_other f (evs : list Event) :
  seen Listener f (List.map (pair Main) evs) = false.
Proof. unfold seen. by rewrite events_of_Listener_Main. Qed.

Lemma step_Untold s tr i :
  Untold s tr ->
  match i with Datagram _ => False | _ => True end ->
  Untold (fst (step s i)) (tr ++ snd (step s i)).
Proof.
  intros H Hi.
  step_split s i; rewrite ?app_nil_r; try exact H; try done.
  all: unfold Untold in *; simpl in *;
    rewrite ?seen_app, ?seen_other, ?orb_false_r; simpl;
    repeat match goal with
    | H : killAll _ _ _ _ = _ |- _ =>
        rewrite
          ?(seen_killAll Main is_join _ _ _ _ _ _ _ (fun _ _ => eq_refl) H)
    end;
    rewrite ?orb_false_r.
  all: destruct H as (H1 & H2 & H3 & H4 & H5 & H6 & H7).
  all: by (simplify_eq; intuition (try discriminate; try congruence)).
Qed.

Lemma exec_Untold sched : forall s tr,
  Untold s tr -> no_datagram sched = true ->
  Untold (fst (exec sched s)) (tr ++ snd (exec sched s)).
Proof.
  induction sched as [|i sched IH]; intros s tr H Hnd; simpl.
  - by rewrite app_nil_r.
  - simpl in Hnd. apply andb_true_iff in Hnd as [Hi Hnd].
    assert (match i with Datagram _ => False | _ => True end) as Hi'
      by (by destruct i).
    pose proof (step_Untold s tr i H Hi') as H1.
    destruct (step s i) as [s1 evs1]. simpl in *.
    specialize (IH s1 _ H1 Hnd).
    destruct (exec sched s1) as [s2 evs2]. simpl in *.
    by rewrite app_assoc.
Qed.

(** X14. Only a datagram makes the listener act: in a run in which no
    datagram arrives, whatever else happens, the listener receives nothing,
    the flag [killedByUser] stays unset, the listener calls no kill method
    (only the SIGTERM handler can), and the main thread does not join the
    listener. *)
Theorem no_datagram_no_listener_kill argv sched :
  no_datagram sched = true ->
  let s := fst (exec sched (boot argv)) in
  let tr := snd (exec sched (boot argv)) in
  killedByUser s = false /\ has_received (thread s) = false /\
  (forall data, ~ In (Listener, EvRecv data) tr) /\
  (forall t p m, In (t, EvCall p m) tr -> t = Main) /\
  ~ In (Main, EvJoin) tr.
Proof.
  intros Hnd s tr.
  assert (Untold (boot argv) []) as H0 by (unfold Untold; simpl; auto 10).
  pose proof (exec_Untold sched (boot argv) [] H0 Hnd)
    as (_ & H2 & H3 & H4 & H5 & H6 & _).
  simpl in *. fold s tr in H2, H3, H4, H5, H6.
  split; [done|]. split; [done|].
  rewrite <- not_true_iff_false, seen_In in H4, H5, H6.
  split; [|split].
  - intros data Hin. apply H4. by exists (EvRecv data).
  - intros t p m Hin. destruct t; [done|]. exfalso. apply H5.
    by exists (EvCall p m).
  - intros Hin. apply H6. by exists EvJoin.
Qed.

Lemma blank_boot argv : blank_state (boot argv) = boot argv.
Proof. done. Qed.

Lemma step_blank s i :
  blank_state (fst (step s i)) = fst (step (blank_state s) (blank i)) /\
  List.map blank_event (snd (step s i)) =
    List.map blank_event (snd (step (blank_state s) (blank i))).
Proof.
  destruct s as [k kbu p th d sg sp ib pt].
  unfold blank_state, step, by_thread, main, quitWhenToldServer,
    deliver_sigterm, blank;
    cbn [pc thread killer killedByUser daemon sigterm subProcess inbox procs
         set_inbox].
  destruct p; try done;
    (destruct i;
     [ | destruct th; try (destruct ib as [|data rest]) | | | | ]);
    cbn [fst snd List.map set_pc set_killer set_killedByUser set_thread
         set_daemon set_sigterm set_subProcess set_inbox set_procs
         pc thread killer killedByUser daemon sigterm subProcess inbox
         procs];
    case_step;
    cbn [fst snd List.map set_pc set_killer set_killedByUser set_thread
         set_daemon set_sigterm set_subProcess set_inbox set_procs
         pc thread killer killedByUser daemon sigterm subProcess inbox
         procs blank_event];
    try done;
    by rewrite List.map_app.
Qed.

Lemma exec_blank sched : forall s,
  blank_state (fst (exec sched s)) =
    fst (exec (List.map blank sched) (blank_state s)) /\
  List.map blank_event (snd (exec sched s)) =
    List.map blank_event (snd (exec (List.map blank sched) (blank_state s))).
Proof.
  induction sched as [|i sched IH]; intros s; [done|].
  simpl. destruct (step_blank s i) as [Hs He].
  destruct (step s i) as [s1 evs1].
  destruct (step (blank_state s) (blank i)) as [s1' evs1'].
  simpl in Hs, He. subst s1'.
  destruct (IH s1) as [Hs2 He2].
  destruct (exec sched s1) as [s2 evs2].
  destruct (exec (List.map blank sched) (blank_state s1)) as [s2' evs2'].
  simpl in *. by rewrite !List.map_app, He, He2.
Qed.

(** X15. The listener does not look at what it receives: two runs that
    differ only in the content of the datagrams sent to the supervisor end
    in the same state and do the same things, the bytes in the queue of the
    socket and those [recv] returned apart.  So a datagram of any content
    has the effect of any other. *)
Theorem datagram_content_is_ignored argv sched1 sched2 :
  List.map blank sched1 = List.map blank sched2 ->
  blank_state (fst (exec sched1 (boot argv))) =
    blank_state (fst (exec sched2 (boot argv))) /\
  List.map blank_event (snd (exec sched1 (boot argv))) =
    List.map blank_event (snd (exec sched2 (boot argv))).
Proof.
  intros Heq.
  destruct (exec_blank sched1 (boot argv)) as [-> ->].
  destruct (exec_blank sched2 (boot argv)) as [-> ->].
  by rewrite Heq.
Qed.

(** ** The daemon thread *)

(** X16. The listener never keeps the supervisor alive: it is a daemon
    thread, so in every run, when the main thread has finished ([sys.exit],
    the return after the print, or an exception nothing caught), its next
    step ends the process with the status it finished with, wherever the
    listener is. *)
Theorem listener_never_blocks_the_end argv sched st :
  let s := fst (exec sched (boot argv)) in
  pc s = MShutdown st ->
  step s RunMain = (set_pc s (MHalt st), []).
Proof.
  intros s Hpc.
  pose proof (run_Guarded argv sched) as (_ & _ & _ & _ & Hd & _).
  fold s in Hd.
  unfold step, by_thread, main. rewrite Hpc.
  destruct (thread s); simpl in *; try done;
    by rewrite (Hd eq_refl).
Qed.

(** ** The tokens of the codec *)

Lemma hex_digit_onto (n : N) : (n < 16)%N -> exists c, hex_digit c = Some n.
Proof.
  intros Hn.
  exists (ascii_of_N (if (n <? 10)%N then 48 + n else 87 + n)).
  destruct n as [|[[[[p|p|]|[p|p|]|]|[[p|p|]|[p|p|]|]|]
                  |[[[p|p|]|[p|p|]|]|[[p|p|]|[p|p|]|]|]|]];
    try lia; reflexivity.
Qed.

Lemma hex_pairs_onto (pickled : string) :
  exists tok,
    hex_pairs tok = inr pickled /\
    String.length tok = 2 * String.length pickled.
Proof.
  induction pickled as [|c pickled (tok & Htok & Hlen)].
  - by exists EmptyString.
  - pose proof (N_ascii_bounded c) as Hc.
    destruct (hex_digit_onto (N_of_ascii c / 16)) as [a Ha].
    { apply N.Div0.div_lt_upper_bound. lia. }
    destruct (hex_digit_onto (N_of_ascii c mod 16)) as [b Hb].
    { apply N.mod_lt. lia. }
    exists (String a (String b tok)). split.
    + cbn [hex_pairs]. rewrite Ha, Hb, Htok. simpl.
      by rewrite <- N.div_mod', ascii_N_embedding.
    + simpl. lia.
Qed.

(** X17. Every byte string has a token: whatever bytes the unpickler is to
    be given, there is a token, of two digits for each byte, that
    [interpret] decodes to exactly these bytes and passes on. *)
Theorem every_pickle_has_a_token (pickled : string) :
  exists tok,
    String.length tok = 2 * String.length pickled /\
    decode_hex tok = inr pickled /\
    interpret tok = pickle_loads pickled.
Proof.
  destruct (hex_pairs_onto pickled) as (tok & Htok & Hlen).
  exists tok. split; [done|].
  assert (decode_hex tok = inr pickled) as Hd.
  { unfold decode_hex. rewrite Hlen, Nat.odd_mul. done. }
  split; [done|]. unfold interpret. by rewrite Hd.
Qed.

End Supervisor.

(** * The properties on the sample supervisor *)



Lemma listener_sends_before_waiting_witness :
  parse_args ex_argv = inr ex_arguments /\
  thread (fst (exec ex_loads ex_Popen ex_pid ex_listening (boot ex_argv)))
  = LRecv /\
  exists peer,
    events_of Listener
      (snd (exec ex_loads ex_Popen ex_pid ex_listening (boot ex_argv)))
    = [EvConnect peer; EvSend "hi"].
Proof.
  assert (H1 : parse_args ex_argv = inr ex_arguments)
    by (vm_compute; reflexivity).
  assert (H2 : thread (fst (exec ex_loads ex_Popen ex_pid ex_listening
                              (boot ex_argv))) = LRecv)
    by (vm_compute; reflexivity).
  repeat (split; [assumption|]).
  exact (proj1 (proj2 (listener_sends_before_waiting
                         ex_loads ex_Popen ex_pid ex_argv ex_arguments
                         ex_listening H1)) H2).
Defined.

Lemma join_only_when_told_witness :
  parse_args ex_argv = inr ex_arguments /\
  In (Main, EvJoin)
     (snd (exec ex_loads ex_Popen ex_pid ex_joined (boot ex_argv))) /\
  thread (fst (exec ex_loads ex_Popen ex_pid ex_joined (boot ex_argv)))
  = LDone.
Proof.
  assert (H1 : parse_args ex_argv = inr ex_arguments)
    by (vm_compute; reflexivity).
  assert (H2 : In (Main, EvJoin)
                  (snd (exec ex_loads ex_Popen ex_pid ex_joined
                          (boot ex_argv))))
    by (vm_compute; auto 20).
  repeat (split; [assumption|]).
  exact (proj1 (proj2 (proj2 (join_only_when_told
                                ex_loads ex_Popen ex_pid ex_argv ex_arguments
                                ex_joined H1))) H2).
Defined.

Lemma natural_exit_not_blocked_witness :
  parse_args ex_argv = inr ex_arguments /\
  pc (fst (exec ex_loads ex_Popen ex_pid ex_listening (boot ex_argv)))
  = MWait true /\
  thread (fst (exec ex_loads ex_Popen ex_pid ex_listening (boot ex_argv)))
  = LRecv /\
  inbox (fst (exec ex_loads ex_Popen ex_pid ex_listening (boot ex_argv)))
  = [] /\
  subProcess (fst (exec ex_loads ex_Popen ex_pid ex_listening (boot ex_argv)))
  = Running 101 /\
  no_datagram [RunMain; Sigterm; RunListener; RunMain; RunMain; RunMain]
  = true /\
  pc (fst (exec ex_loads ex_Popen ex_pid
             (ChildExit 0 ::
              [RunMain; Sigterm; RunListener; RunMain; RunMain; RunMain])
             (fst (exec ex_loads ex_Popen ex_pid ex_listening
                     (boot ex_argv)))))
  = MHalt (Exited 0).
Proof.
  assert (H1 : parse_args ex_argv = inr ex_arguments)
    by (vm_compute; reflexivity).
  assert (H2 : pc (fst (exec ex_loads ex_Popen ex_pid ex_listening
                          (boot ex_argv))) = MWait true)
    by (vm_compute; reflexivity).
  assert (H3 : thread (fst (exec ex_loads ex_Popen ex_pid ex_listening
                              (boot ex_argv))) = LRecv)
    by (vm_compute; reflexivity).
  assert (H4 : inbox (fst (exec ex_loads ex_Popen ex_pid ex_listening
                             (boot ex_argv))) = [])
    by (vm_compute; reflexivity).
  assert (H5 : subProcess (fst (exec ex_loads ex_Popen ex_pid ex_listening
                                  (boot ex_argv))) = Running 101)
    by (vm_compute; reflexivity).
  assert (H6 : no_datagram
                 [RunMain; Sigterm; RunListener; RunMain; RunMain; RunMain]
               = true) by reflexivity.
  repeat (split; [assumption|]).
  assert (H7 : 4 <= main_steps
                      [RunMain; Sigterm; RunListener; RunMain; RunMain;
                       RunMain]) by (vm_compute; lia).
  exact (proj2 (proj2 (proj2 (natural_exit_not_blocked
                                ex_loads ex_Popen ex_pid ex_argv ex_arguments
                                ex_listening 101%Z 0%Z
                                [RunMain; Sigterm; RunListener; RunMain;
                                 RunMain; RunMain]
                                H1 H2 H3 H4 H5 H6))) H7).
Defined.

Lemma sigterm_kills_like_listener_witness :
  runs_killAll (fst (exec ex_loads ex_Popen ex_pid ex_told
                       (boot ex_argv_kill))) Sigterm = Some Main /\
  runs_killAll (fst (exec ex_loads ex_Popen ex_pid ex_told
                       (boot ex_argv_kill))) RunListener = Some Listener /\
  List.map snd
    (snd (step ex_loads ex_Popen ex_pid
            (fst (exec ex_loads ex_Popen ex_pid ex_told (boot ex_argv_kill)))
            Sigterm))
  = List.map snd
      (snd (step ex_loads ex_Popen ex_pid
              (fst (exec ex_loads ex_Popen ex_pid ex_told
                      (boot ex_argv_kill)))
              RunListener)).
Proof.
  assert (H1 : runs_killAll (fst (exec ex_loads ex_Popen ex_pid ex_told
                                    (boot ex_argv_kill))) Sigterm
               = Some Main) by (vm_compute; reflexivity).
  assert (H2 : runs_killAll (fst (exec ex_loads ex_Popen ex_pid ex_told
                                    (boot ex_argv_kill))) RunListener
               = Some Listener) by (vm_compute; reflexivity).
  repeat (split; [assumption|]).
  exact (proj1 (sigterm_kills_like_listener
                  ex_loads ex_Popen ex_pid
                  (fst (exec ex_loads ex_Popen ex_pid ex_told
                          (boot ex_argv_kill))) H1 H2)).
Defined.

Lemma interpret_only_prints_witness :
  parse_args ex_argv_interpret = inr ex_arguments_interpret /\
  arg_interpret ex_arguments_interpret = true /\
  interpret ex_loads (detailsHexedPickle ex_arguments_interpret)
  = inr ex_details /\
  no_sigterm [RunMain; Datagram "die"; RunMain; RunListener; RunMain]
  = true /\
  3 <= main_steps [RunMain; Datagram "die"; RunMain; RunListener; RunMain] /\
  pc (fst (exec ex_loads ex_Popen ex_pid
             [RunMain; Datagram "die"; RunMain; RunListener; RunMain]
             (boot ex_argv_interpret)))
  = MHalt (Exited 0) /\
  snd (exec ex_loads ex_Popen ex_pid
         [RunMain; Datagram "die"; RunMain; RunListener; RunMain]
         (boot ex_argv_interpret))
  = [(Main, EvPprint ex_details)].
Proof.
  assert (H1 : parse_args ex_argv_interpret = inr ex_arguments_interpret)
    by (vm_compute; reflexivity).
  assert (H2 : arg_interpret ex_arguments_interpret = true) by reflexivity.
  assert (H3 : interpret ex_loads (detailsHexedPickle ex_arguments_interpret)
               = inr ex_details) by (vm_compute; reflexivity).
  assert (H4 : no_sigterm
                 [RunMain; Datagram "die"; RunMain; RunListener; RunMain]
               = true) by reflexivity.
  assert (H5 : 3 <= main_steps
                      [RunMain; Datagram "die"; RunMain; RunListener;
                       RunMain]) by (vm_compute; lia).
  repeat (split; [assumption|]).
  exact (proj2 (proj2 (proj2 (proj2 (proj2
           (interpret_only_prints ex_loads ex_Popen ex_pid
              ex_argv_interpret ex_arguments_interpret ex_details
              [RunMain; Datagram "die"; RunMain; RunListener; RunMain]
              H1 H2 H3))))) H4 H5).
Defined.

Lemma decode_failure_is_fatal_witness :
  parse_args ex_argv_bad = inr ex_arguments_bad /\
  interpret ex_loads (detailsHexedPickle ex_arguments_bad)
  = inl (TypeError "Non-hexadecimal digit found") /\
  no_sigterm [RunMain; RunMain; ChildExit 0; RunMain] = true /\
  3 <= main_steps [RunMain; RunMain; ChildExit 0; RunMain] /\
  pc (fst (exec ex_loads ex_Popen ex_pid
             [RunMain; RunMain; ChildExit 0; RunMain] (boot ex_argv_bad)))
  = MHalt (Uncaught (TypeError "Non-hexadecimal digit found")).
Proof.
  assert (H1 : parse_args ex_argv_bad = inr ex_arguments_bad)
    by (vm_compute; reflexivity).
  assert (H2 : interpret ex_loads (detailsHexedPickle ex_arguments_bad)
               = inl (TypeError "Non-hexadecimal digit found"))
    by (vm_compute; reflexivity).
  assert (H3 : no_sigterm [RunMain; RunMain; ChildExit 0; RunMain] = true)
    by reflexivity.
  assert (H4 : 3 <= main_steps [RunMain; RunMain; ChildExit 0; RunMain])
    by (vm_compute; lia).
  repeat (split; [assumption|]).
  exact (proj2 (proj2 (proj2 (proj2 (proj2 (proj2 (proj2
           (decode_failure_is_fatal ex_loads ex_Popen ex_pid
              ex_argv_bad ex_arguments_bad
              (TypeError "Non-hexadecimal digit found")
              [RunMain; RunMain; ChildExit 0; RunMain]
              H1 H2))))))) H3 H4).
Defined.

Lemma control_channel_single_shot_witness :
  parse_args ex_argv_kill = inr ex_arguments_kill /\
  has_received
    (thread (fst (exec ex_loads ex_Popen ex_pid ex_told
                    (boot ex_argv_kill)))) = true /\
  count is_send
    (events_of Listener
       (snd (exec ex_loads ex_Popen ex_pid ex_told (boot ex_argv_kill))))
  = 1 /\
  count is_recv
    (events_of Listener
       (snd (exec ex_loads ex_Popen ex_pid ex_told (boot ex_argv_kill))))
  = 1 /\
  count is_send
    (events_of Listener
       (snd (exec ex_loads ex_Popen ex_pid
               [Datagram "again"; RunListener; RunListener; RunListener]
               (fst (exec ex_loads ex_Popen ex_pid ex_told
                       (boot ex_argv_kill))))))
  = 0 /\
  count is_recv
    (events_of Listener
       (snd (exec ex_loads ex_Popen ex_pid
               [Datagram "again"; RunListener; RunListener; RunListener]
               (fst (exec ex_loads ex_Popen ex_pid ex_told
                       (boot ex_argv_kill))))))
  = 0.
Proof.
  assert (H1 : parse_args ex_argv_kill = inr ex_arguments_kill)
    by (vm_compute; reflexivity).
  assert (H2 : has_received
                 (thread (fst (exec ex_loads ex_Popen ex_pid ex_told
                                 (boot ex_argv_kill)))) = true)
    by (vm_compute; reflexivity).
  repeat (split; [assumption|]).
  exact (proj2 (proj2 (proj2
           (control_channel_single_shot ex_loads ex_Popen ex_pid
              ex_argv_kill ex_arguments_kill ex_told
              [Datagram "again"; RunListener; RunListener; RunListener]
              H1))) H2).
Defined.


(** ** Where the code departs from the specification *)

(** C3 as the specification has it fails: in the run [ex_listening] the
    listener has sent its datagram and has received none. *)
Lemma ack_only_on_receipt_counterexample :
  events_of Listener
    (snd (exec ex_loads ex_Popen ex_pid ex_listening (boot ex_argv)))
  = [EvConnect (PyTuple [PyStr "10.0.0.1"; PyInt 64000]); EvSend "hi"] /\
  sends_follow_recv false
    (events_of Listener
       (snd (exec ex_loads ex_Popen ex_pid ex_listening (boot ex_argv))))
  = false.
Proof. split; vm_compute; reflexivity. Qed.

(** C4 as the specification has it fails: in the run [ex_natural] the
    supervisor has exited with the child's code 7, its main thread has
    launched the child, installed the handler, started the listener and
    called [sys.exit] without joining, and the listener thread is still
    running, in [recv]. *)
Lemma exit_joins_listener_counterexample :
  pc (fst (exec ex_loads ex_Popen ex_pid ex_natural (boot ex_argv)))
  = MHalt (Exited 7) /\
  thread (fst (exec ex_loads ex_Popen ex_pid ex_natural (boot ex_argv)))
  = LRecv /\
  is_alive
    (thread (fst (exec ex_loads ex_Popen ex_pid ex_natural (boot ex_argv))))
  = true /\
  events_of Main
    (snd (exec ex_loads ex_Popen ex_pid ex_natural (boot ex_argv)))
  = [EvPopen (PyTuple [PyStr "sleep 3"]) (PyDict ∅); EvSignalHandler;
     EvThreadStart; EvExit 7].
Proof.
  split; [vm_compute; reflexivity|]. split; [vm_compute; reflexivity|].
  split; vm_compute; reflexivity.
Qed.

(** C8 as the specification has it fails: the malformed token [zz] makes
    the decoding raise a TypeError, not a DecodeError. *)
Lemma decode_error_class_counterexample :
  interpret ex_loads (detailsHexedPickle ex_arguments_bad)
  = inl (TypeError "Non-hexadecimal digit found") /\
  exc_class (TypeError "Non-hexadecimal digit found") <> "DecodeError".
Proof. split; [reflexivity | discriminate]. Qed.


(** * The further properties on the sample supervisor *)

Lemma ex_table_children :
  children_recursive ex_table ex_pid = [101%Z; 102%Z].
Proof. vm_compute. reflexivity. Qed.

Lemma killAll_spares_supervisor_witness :
  ~ descendant ex_table ex_pid ex_pid /\
  ~ In (EvCall ex_pid "terminate")
       (fst (killAll [] (Some "terminate") ex_table ex_pid)).
Proof.
  assert (H1 : ~ descendant ex_table ex_pid ex_pid).
  { rewrite <- children_recursive_spec, ex_table_children.
    simpl. intros [H | [H | []]]; discriminate H. }
  split; [exact H1|].
  exact (killAll_spares_supervisor [] (Some "terminate") ex_table ex_pid
           ex_pid "terminate" H1 (or_introl eq_refl)).
Defined.


Lemma launch_and_connect_as_described_witness :
  In (Listener, EvConnect (PyTuple [PyStr "10.0.0.1"; PyInt 64000]))
     (snd (exec ex_loads ex_Popen ex_pid ex_listening (boot ex_argv))) /\
  exists a details,
    parse_args ex_argv = inr a /\ arg_interpret a = false /\
    quitWhenTold a = true /\
    interpret ex_loads (detailsHexedPickle a) = inr details /\
    getitem details "peer" = inr (PyTuple [PyStr "10.0.0.1"; PyInt 64000]).
Proof.
  assert (H1 : In (Listener,
                   EvConnect (PyTuple [PyStr "10.0.0.1"; PyInt 64000]))
                  (snd (exec ex_loads ex_Popen ex_pid ex_listening
                          (boot ex_argv))))
    by (vm_compute; auto 10).
  split; [assumption|].
  exact (proj2 (launch_and_connect_as_described ex_loads ex_Popen ex_pid
                  ex_argv ex_listening) _ H1).
Defined.


Lemma launch_failure_is_fatal_witness :
  parse_args ex_argv_plain = inr ex_arguments_plain /\
  arg_interpret ex_arguments_plain = false /\
  interpret ex_loads (detailsHexedPickle ex_arguments_plain)
  = inr ex_details /\
  spawn ex_Popen_fails ex_details = inl ex_OSError /\
  no_sigterm [RunMain; RunMain; RunMain; RunListener; RunMain] = true /\
  4 <= main_steps [RunMain; RunMain; RunMain; RunListener; RunMain] /\
  pc (fst (exec ex_loads ex_Popen_fails ex_pid
             [RunMain; RunMain; RunMain; RunListener; RunMain]
             (boot ex_argv_plain)))
  = MHalt (Uncaught ex_OSError).
Proof.
  assert (H1 : parse_args ex_argv_plain = inr ex_arguments_plain)
    by (vm_compute; reflexivity).
  assert (H2 : arg_interpret ex_arguments_plain = false) by reflexivity.
  assert (H3 : interpret ex_loads (detailsHexedPickle ex_arguments_plain)
               = inr ex_details)
    by (vm_compute; reflexivity).
  assert (H4 : spawn ex_Popen_fails ex_details = inl ex_OSError)
    by (vm_compute; reflexivity).
  assert (H5 : no_sigterm [RunMain; RunMain; RunMain; RunListener; RunMain]
               = true) by reflexivity.
  assert (H6 : 4 <= main_steps
                      [RunMain; RunMain; RunMain; RunListener; RunMain])
    by (vm_compute; lia).
  do 6 (split; [assumption|]).
  exact (proj2 (proj2 (proj2 (proj2 (proj2 (proj2
           (launch_failure_is_fatal ex_loads ex_Popen_fails ex_pid
              ex_argv_plain ex_arguments_plain ex_details ex_OSError
              [RunMain; RunMain; RunMain; RunListener; RunMain]
              H1 H2 H3 H4)))))) H5 H6).
Defined.

Lemma missing_peer_is_fatal_after_launch_witness :
  parse_args ex_argv = inr ex_arguments /\
  arg_interpret ex_arguments = false /\
  quitWhenTold ex_arguments = true /\
  interpret ex_loads_nopeer (detailsHexedPickle ex_arguments)
  = inr ex_details_nopeer /\
  spawn ex_Popen ex_details_nopeer
  = inr (PyTuple [PyStr "sleep 3"], PyDict ∅, 101%Z) /\
  getitem ex_details_nopeer "peer" = inl (KeyError "peer") /\
  no_sigterm [RunMain; RunMain; RunMain; RunMain; RunMain; RunMain] = true /\
  6 <= main_steps [RunMain; RunMain; RunMain; RunMain; RunMain; RunMain] /\
  pc (fst (exec ex_loads_nopeer ex_Popen ex_pid
             [RunMain; RunMain; RunMain; RunMain; RunMain; RunMain]
             (boot ex_argv)))
  = MHalt (Uncaught (KeyError "peer")) /\
  skeleton (snd (exec ex_loads_nopeer ex_Popen ex_pid
                   [RunMain; RunMain; RunMain; RunMain; RunMain; RunMain]
                   (boot ex_argv)))
  = [EvPopen (PyTuple [PyStr "sleep 3"]) (PyDict ∅); EvSignalHandler].
Proof.
  assert (H1 : parse_args ex_argv = inr ex_arguments)
    by (vm_compute; reflexivity).
  assert (H2 : arg_interpret ex_arguments = false) by reflexivity.
  assert (H3 : quitWhenTold ex_arguments = true) by reflexivity.
  assert (H4 : interpret ex_loads_nopeer (detailsHexedPickle ex_arguments)
               = inr ex_details_nopeer)
    by (vm_compute; reflexivity).
  assert (H5 : spawn ex_Popen ex_details_nopeer
               = inr (PyTuple [PyStr "sleep 3"], PyDict ∅, 101%Z))
    by (vm_compute; reflexivity).
  assert (H6 : getitem ex_details_nopeer "peer" = inl (KeyError "peer"))
    by (vm_compute; reflexivity).
  assert (H7 : no_sigterm
                 [RunMain; RunMain; RunMain; RunMain; RunMain; RunMain]
               = true) by reflexivity.
  assert (H8 : 6 <= main_steps
                      [RunMain; RunMain; RunMain; RunMain; RunMain; RunMain])
    by (vm_compute; lia).
  do 8 (split; [assumption|]).
  exact (proj2 (proj2 (proj2 (proj2 (proj2
           (missing_peer_is_fatal_after_launch ex_loads_nopeer ex_Popen
              ex_pid ex_argv ex_arguments ex_details_nopeer
              (PyTuple [PyStr "sleep 3"]) (PyDict ∅) 101%Z
              (KeyError "peer")
              [RunMain; RunMain; RunMain; RunMain; RunMain; RunMain]
              H1 H2 H3 H4 H5 H6))))) H7 H8).
Defined.

Lemma kills_only_after_setup_witness :
  snd (exec ex_loads ex_Popen ex_pid ex_joined (boot ex_argv_kill)) =
    [(Main, EvPopen (PyTuple [PyStr "sleep 3"]) (PyDict ∅));
     (Main, EvSignalHandler); (Main, EvThreadStart);
     (Listener, EvConnect (PyTuple [PyStr "10.0.0.1"; PyInt 64000]));
     (Listener, EvSend "hi"); (Listener, EvRecv "die")] ++
    (Listener, EvCall 101 "kill") ::
    [(Listener, EvCall 102 "kill"); (Main, EvJoin); (Main, EvExit (-15))] /\
  In (Main, EvSignalHandler)
    [(Main, EvPopen (PyTuple [PyStr "sleep 3"]) (PyDict ∅));
     (Main, EvSignalHandler); (Main, EvThreadStart);
     (Listener, EvConnect (PyTuple [PyStr "10.0.0.1"; PyInt 64000]));
     (Listener, EvSend "hi"); (Listener, EvRecv "die")].
Proof.
  assert (H1 : snd (exec ex_loads ex_Popen ex_pid ex_joined
                      (boot ex_argv_kill)) =
    [(Main, EvPopen (PyTuple [PyStr "sleep 3"]) (PyDict ∅));
     (Main, EvSignalHandler); (Main, EvThreadStart);
     (Listener, EvConnect (PyTuple [PyStr "10.0.0.1"; PyInt 64000]));
     (Listener, EvSend "hi"); (Listener, EvRecv "die")] ++
    (Listener, EvCall 101 "kill") ::
    [(Listener, EvCall 102 "kill"); (Main, EvJoin); (Main, EvExit (-15))])
    by (vm_compute; reflexivity).
  split; [assumption|].
  exact (proj2 (kills_only_after_setup ex_loads ex_Popen ex_pid
                  ex_argv_kill ex_joined _ _ _ _ _ H1)).
Defined.

Lemma early_sigterm_kills_only_supervisor_witness :
  ~ In (Main, EvSignalHandler)
      (snd (exec ex_loads ex_Popen ex_pid ex_launched (boot ex_argv))) /\
  is_halted (pc (fst (exec ex_loads ex_Popen ex_pid ex_launched
                        (boot ex_argv)))) = false /\
  exec ex_loads ex_Popen ex_pid
    (ex_launched ++ Sigterm :: [RunMain; RunMain]) (boot ex_argv) =
  (set_pc (fst (exec ex_loads ex_Popen ex_pid ex_launched (boot ex_argv)))
          (MHalt (Killed SIGTERM)),
   snd (exec ex_loads ex_Popen ex_pid ex_launched (boot ex_argv))).
Proof.
  assert (Htr : snd (exec ex_loads ex_Popen ex_pid ex_launched
                       (boot ex_argv)) =
                [(Main, EvPopen (PyTuple [PyStr "sleep 3"]) (PyDict ∅))])
    by (vm_compute; reflexivity).
  assert (H1 : ~ In (Main, EvSignalHandler)
                 (snd (exec ex_loads ex_Popen ex_pid ex_launched
                         (boot ex_argv)))).
  { rewrite Htr. intros [H | []]. discriminate H. }
  assert (H2 : is_halted (pc (fst (exec ex_loads ex_Popen ex_pid ex_launched
                                     (boot ex_argv)))) = false)
    by (vm_compute; reflexivity).
  do 2 (split; [assumption|]).
  exact (proj1 (early_sigterm_kills_only_supervisor ex_loads ex_Popen ex_pid
                  ex_argv ex_launched [RunMain; RunMain] H1 H2)).
Defined.


Lemma without_quit_when_told_no_listener_witness :
  parse_args ex_argv_plain = inr ex_arguments_plain /\
  quitWhenTold ex_arguments_plain = false /\
  thread (fst (exec ex_loads ex_Popen ex_pid
                 (ex_listening ++ [Datagram "die"; RunListener])
                 (boot ex_argv_plain))) = LIdle.
Proof.
  assert (H1 : parse_args ex_argv_plain = inr ex_arguments_plain)
    by (vm_compute; reflexivity).
  assert (H2 : quitWhenTold ex_arguments_plain = false) by reflexivity.
  do 2 (split; [assumption|]).
  exact (proj1 (without_quit_when_told_no_listener ex_loads ex_Popen ex_pid
                  ex_argv_plain ex_arguments_plain
                  (ex_listening ++ [Datagram "die"; RunListener]) H1 H2)).
Defined.

Lemma no_datagram_no_listener_kill_witness :
  no_datagram ex_natural = true /\
  killedByUser (fst (exec ex_loads ex_Popen ex_pid ex_natural (boot ex_argv)))
  = false.
Proof.
  assert (H1 : no_datagram ex_natural = true) by (vm_compute; reflexivity).
  split; [assumption|].
  exact (proj1 (no_datagram_no_listener_kill ex_loads ex_Popen ex_pid
                  ex_argv ex_natural H1)).
Defined.

Lemma datagram_content_is_ignored_witness :
  List.map blank ex_told = List.map blank ex_told_otherwise /\
  blank_state (fst (exec ex_loads ex_Popen ex_pid ex_told (boot ex_argv))) =
  blank_state (fst (exec ex_loads ex_Popen ex_pid ex_told_otherwise
                      (boot ex_argv))).
Proof.
  assert (H1 : List.map blank ex_told = List.map blank ex_told_otherwise)
    by (vm_compute; reflexivity).
  split; [assumption|].
  exact (proj1 (datagram_content_is_ignored ex_loads ex_Popen ex_pid
                  ex_argv ex_told ex_told_otherwise H1)).
Defined.

Lemma listener_never_blocks_the_end_witness :
  pc (fst (exec ex_loads ex_Popen ex_pid ex_exiting (boot ex_argv)))
  = MShutdown (Exited 7) /\
  is_alive (thread (fst (exec ex_loads ex_Popen ex_pid ex_exiting
                           (boot ex_argv)))) = true /\
  step ex_loads ex_Popen ex_pid
    (fst (exec ex_loads ex_Popen ex_pid ex_exiting (boot ex_argv))) RunMain =
  (set_pc (fst (exec ex_loads ex_Popen ex_pid ex_exiting (boot ex_argv)))
          (MHalt (Exited 7)), []).
Proof.
  assert (H1 : pc (fst (exec ex_loads ex_Popen ex_pid ex_exiting
                          (boot ex_argv)))
               = MShutdown (Exited 7))
    by (vm_compute; reflexivity).
  assert (H2 : is_alive (thread (fst (exec ex_loads ex_Popen ex_pid
                                        ex_exiting (boot ex_argv)))) = true)
    by (vm_compute; reflexivity).
  do 2 (split; [assumption|]).
  exact (listener_never_blocks_the_end ex_loads ex_Popen ex_pid
           ex_argv ex_exiting (Exited 7) H1).
Defined.
